(** * mo-dump: the GNU gettext [.mo] reader of [src/main.cpp]

    A shallow embedding of [mo_parser] (header and table decoding,
    [store_message]), of [quote_escape_string] and of [main], followed by
    the properties of the specification checked against it.

    Conventions of the embedding
    - a [std::string] is a [string] (a list of 8-bit [ascii]); a byte is read
      as a number with [N_of_ascii];
    - [uint32_t] values are integers of [Z] in [0, 2^32); every 32-bit
      operation of the source is written with its reduction modulo [2^32];
      [size_t] is 64 bits wide and the address arithmetic of [p[i]] is
      exact;
    - the struct overlays [(mo_header* )content.c_str()] read their fields
      in the byte order of the host, taken to be little-endian;
    - [content.c_str()] is the buffer followed by one NUL byte; a read
      outside of it has no defined behaviour and is the outcome [WildRead];
    - [std::string::substr] throws [std::out_of_range] when its position
      exceeds the size; nothing catches it, this is the outcome [Threw];
    - [hashmap_] is a finite map [gmap string string]. *)

From Stdlib Require Import ZArith Lia Ascii String List.
From stdpp Require Import base option gmap strings fin_maps pretty.

Local Open Scope string_scope.
Local Open Scope Z_scope.

(** ** Bytes and characters *)

Module Chars.

Definition NUL : ascii := "000"%char.
Definition TAB : ascii := "009"%char.
Definition LF : ascii := "010"%char.
Definition DQUOTE : ascii := "034"%char.
Definition BACKSLASH : ascii := "092"%char.

(** One-character string. *)
Definition chr (c : ascii) : string := String c EmptyString.

Definition nl : string := chr LF.

End Chars.
Import Chars.

(** ** [quote_escape_string] *)

(** The body of the [switch (c)]: what one character appends to [result]. *)
Definition escape_char (c : ascii) : string :=
  if Ascii.eqb c LF then chr BACKSLASH +:+ "n"
  else if Ascii.eqb c TAB then chr BACKSLASH +:+ "t"
  else if Ascii.eqb c NUL then chr BACKSLASH +:+ "0"
  else if Ascii.eqb c DQUOTE then chr BACKSLASH +:+ chr DQUOTE
  else if Ascii.eqb c BACKSLASH then chr BACKSLASH +:+ chr BACKSLASH
  else chr c.

(** The range-for loop, [result] being the accumulator. *)
Fixpoint escape_loop (str : string) (result : string) : string :=
  match str with
  | EmptyString => result
  | String c rest => escape_loop rest (result +:+ escape_char c)
  end.

Definition quote_escape_string (str : string) : string :=
  let result := chr DQUOTE in
  let result := escape_loop str result in
  result +:+ chr DQUOTE.

(** The escaping as the specification words it: each byte is replaced by
    its image, in order, between two double quotes. *)
Module EscapeSpec.

Definition image (c : ascii) : list ascii :=
  if decide (c = LF) then [BACKSLASH; "n"%char]
  else if decide (c = TAB) then [BACKSLASH; "t"%char]
  else if decide (c = NUL) then [BACKSLASH; "0"%char]
  else if decide (c = DQUOTE) then [BACKSLASH; DQUOTE]
  else if decide (c = BACKSLASH) then [BACKSLASH; BACKSLASH]
  else [c].

Definition escape (s : string) : string :=
  string_of_list_ascii
    ([DQUOTE] ++ concat (map image (list_ascii_of_string s)) ++ [DQUOTE]).

End EscapeSpec.

(** ** The [.mo] layout *)

(** [uint32_t] arithmetic: results are reduced modulo [2^32]. *)
Definition u32 (x : Z) : Z := x mod 2 ^ 32.

Record mo_header := {
  magic : Z;
  version : Z;
  number : Z;   (* number of strings *)
  o_offset : Z; (* offset of original string table *)
  t_offset : Z  (* offset of translated string table *)
}.

(** [mo_entry]: the field [length] of the source is [e_length] here, since
    [length] is the length of lists. *)
Record mo_entry := {
  e_length : Z;
  e_offset : Z
}.

Definition sizeof_mo_header : Z := 20.
Definition sizeof_mo_entry : Z := 8.

(** ** Reading the buffer *)

Definition content_size (content : string) : Z :=
  Z.of_nat (String.length content).

Definition c_str (content : string) : string := content +:+ chr NUL.

Definition byte_at (mem : string) (a : Z) : option Z :=
  if a <? 0 then None
  else (λ c, Z.of_N (N_of_ascii c)) <$> String.get (Z.to_nat a) mem.

(** A [uint32_t] field at address [a], least significant byte first. *)
Definition read_u32 (mem : string) (a : Z) : option Z :=
  b0 ← byte_at mem a;
  b1 ← byte_at mem (a + 1);
  b2 ← byte_at mem (a + 2);
  b3 ← byte_at mem (a + 3);
  Some (b0 + 2 ^ 8 * b1 + 2 ^ 16 * b2 + 2 ^ 24 * b3).

Definition read_header (mem : string) : option mo_header :=
  m ← read_u32 mem 0;
  v ← read_u32 mem 4;
  n ← read_u32 mem 8;
  o ← read_u32 mem 12;
  t ← read_u32 mem 16;
  Some {| magic := m; version := v; number := n; o_offset := o; t_offset := t |}.

(** [table[i]] for a table that starts [table] bytes into the buffer. *)
Definition read_entry (mem : string) (table i : Z) : option mo_entry :=
  l ← read_u32 mem (table + sizeof_mo_entry * i);
  o ← read_u32 mem (table + sizeof_mo_entry * i + 4);
  Some {| e_length := l; e_offset := o |}.

(** [content.substr(pos, len)]: [None] stands for [std::out_of_range];
    otherwise at most [len] characters, as many as the string still has. *)
Definition substr (content : string) (pos len : Z) : option string :=
  if content_size content <? pos then None
  else Some (String.substring (Z.to_nat pos)
               (Z.to_nat (Z.min len (content_size content - pos))) content).

(** ** Diagnostics and outcomes *)

(** What [process_mo_contents] writes to [std::cerr] before it returns
    early, with the numbers the message prints. *)
Inductive diagnostic :=
  | TooSmall (found expected : Z)
  | BadMagic
  | BadVersion (observed : Z)
  | TableOutOfBounds
  | EntryOutOfBounds.

Definition message (d : diagnostic) : string :=
  match d with
  | TooSmall found expected =>
      "content too small: " +:+ pretty found +:+ " bytes found, expected "
        +:+ pretty expected +:+ " at least" +:+ nl
  | BadMagic => "magic number mismatch" +:+ nl
  | BadVersion observed =>
      " header version is wrong (not 0 or 1): " +:+ pretty observed +:+ nl
  | TableOutOfBounds =>
      " header indicates more messages than file has space for..." +:+ nl
  | EntryOutOfBounds => " file ended prematurely" +:+ nl
  end.

(** How a call ends: it returns (after a diagnostic or none), an exception
    leaves it, or it read outside the buffer. *)
Inductive outcome :=
  | Returned (d : option diagnostic)
  | Threw
  | WildRead.

(** ** [mo_parser] *)

(** [hashmap_.emplace(msgid, msgstr)]: nothing happens when the key is
    already present. *)
Definition store_message (msgid msgstr : string)
    (hashmap_ : gmap string string) : gmap string string :=
  match hashmap_ !! msgid with
  | Some _ => hashmap_
  | None => <[msgid := msgstr]> hashmap_
  end.

(** The negation of [e.offset + e.length > size], the sum being a
    [uint32_t] and the comparison one of [size_t]. *)
Definition entry_fits (size : Z) (e : mo_entry) : bool :=
  u32 (e_offset e + e_length e) <=? size.

(** One iteration of the loop on [i]. *)
Inductive step :=
  | Stored (msgid msgstr : string)
  | Stop (o : outcome).

Definition loop_body (content : string) (header : mo_header) (i : Z) : step :=
  let size := content_size content in
  match read_entry (c_str content) (o_offset header) i with
  | None => Stop WildRead
  | Some original =>
      if negb (entry_fits size original)
      then Stop (Returned (Some EntryOutOfBounds))
      else
        match read_entry (c_str content) (t_offset header) i with
        | None => Stop WildRead
        | Some translated =>
            if negb (entry_fits size translated)
            then Stop (Returned (Some EntryOutOfBounds))
            else
              match substr content (e_offset original) (e_length original) with
              | None => Stop Threw
              | Some msgid =>
                  match substr content (e_offset translated)
                          (e_length translated) with
                  | None => Stop Threw
                  | Some msgstr => Stored msgid msgstr
                  end
              end
        end
  end.

(** [for (unsigned i = ...; i < header->number; ++i)] with [todo]
    iterations left, that is [header->number - i]. *)
Fixpoint entries_loop (todo : nat) (content : string) (header : mo_header)
    (i : Z) (hashmap_ : gmap string string) : outcome * gmap string string :=
  match todo with
  | O => (Returned None, hashmap_)
  | S todo' =>
      match loop_body content header i with
      | Stored msgid msgstr =>
          entries_loop todo' content header (i + 1)
            (store_message msgid msgstr hashmap_)
      | Stop o => (o, hashmap_)
      end
  end.

(** The gate on the two tables, in the arithmetic of the source: [8 *
    header->number] and the sum are [uint32_t]. *)
Definition tables_fit (size : Z) (header : mo_header) : bool :=
  (u32 (o_offset header + u32 (8 * number header)) <=? size)
  && (u32 (t_offset header + u32 (8 * number header)) <=? size).

Definition process_mo_contents (content : string)
    (hashmap_ : gmap string string) : outcome * gmap string string :=
  let size := content_size content in
  if size <? sizeof_mo_header
  then (Returned (Some (TooSmall size sizeof_mo_header)), hashmap_)
  else
    match read_header (c_str content) with
    | None => (WildRead, hashmap_)
    | Some header =>
        if negb (magic header =? 0x950412de)
        then (Returned (Some BadMagic), hashmap_)
        else if negb (version header =? 0) && negb (version header =? 1)
        then (Returned (Some (BadVersion (version header))), hashmap_)
        else if negb (tables_fit size header)
        then (Returned (Some TableOutOfBounds), hashmap_)
        else entries_loop (Z.to_nat (number header)) content header 0 hashmap_
    end.

(** The file system as [main] sees it: the contents of the files that
    [std::ifstream] can open. *)
Definition files := string → option string.

(** The constructor: [hashmap_] starts empty and the file, when it opens,
    is decoded into it. *)
Definition mo_parser (fs : files) (filename : string)
    : outcome * gmap string string :=
  match fs filename with
  | Some contents => process_mo_contents contents ∅
  | None => (Returned None, ∅)
  end.

(** Decoding a buffer into a fresh parser. *)
Definition decode_mo (content : string) : outcome * gmap string string :=
  process_mo_contents content ∅.

(** ** [main] *)

(** [print_usage]: [prog_name] is [argv[0]], null when there is none. *)
Definition print_usage (prog_name : option string) : string :=
  let prog := default "mo_dump" prog_name in
  "Usage:" +:+ nl +:+ "  " +:+ prog +:+ " mo-filename keys" +:+ nl
    +:+ "  " +:+ prog +:+ " mo-filename pairs" +:+ nl +:+ nl.

(** How the process ends: [main] returns a status, [std::terminate] ends it
    after an exception nobody caught, or its behaviour is undefined. *)
Inductive ending :=
  | Exit (code : Z)
  | Terminated
  | Undefined.

Record run := {
  ended : ending;
  cout : string;
  cerr : string
}.

(** The two range-for loops over [mo.get_map()]. The order in which an
    [unordered_map] is traversed is left open by the language; the lines
    come here in the order of [map_to_list]. *)
Definition dump_keys (m : gmap string string) : string :=
  foldr (λ p rest, "  " +:+ quote_escape_string p.1 +:+ nl +:+ rest)
    "" (map_to_list m).

Definition dump_pairs (m : gmap string string) : string :=
  foldr (λ p rest, "  " +:+ quote_escape_string p.1 +:+ " -> "
                     +:+ quote_escape_string p.2 +:+ nl +:+ rest)
    "" (map_to_list m).

Definition read_line (m : gmap string string) : string :=
  "Read " +:+ pretty (size m) +:+ " entries:" +:+ nl.

Definition main (fs : files) (argv : list string) : run :=
  let prog_name := argv !! 0%nat in
  if (length argv <? 3)%nat
  then {| ended := Exit 1; cout := ""; cerr := print_usage prog_name |}
  else
    let filename := default "" (argv !! 1%nat) in
    match fs filename with
    | None =>
        {| ended := Exit 1; cout := "";
           cerr := print_usage prog_name +:+ "Could not open file '"
                     +:+ filename +:+ "'" +:+ nl |}
    | Some _ =>
        match mo_parser fs filename with
        | (Returned d, hashmap_) =>
            let diagnosed := from_option message "" d in
            let action := default "" (argv !! 2%nat) in
            if String.eqb action "keys"
            then {| ended := Exit 0;
                    cout := read_line hashmap_ +:+ dump_keys hashmap_ +:+ nl;
                    cerr := diagnosed |}
            else if String.eqb action "pairs"
            then {| ended := Exit 0;
                    cout := read_line hashmap_ +:+ dump_pairs hashmap_ +:+ nl;
                    cerr := diagnosed |}
            else {| ended := Exit 0;
                    cout := read_line hashmap_ +:+ nl;
                    cerr := diagnosed +:+ print_usage prog_name |}
        | (Threw, _) => {| ended := Terminated; cout := ""; cerr := "" |}
        | (WildRead, _) => {| ended := Undefined; cout := ""; cerr := "" |}
        end
    end.

(** ** Building buffers, for the examples *)

Module Build.

(** The four bytes of a [uint32_t], least significant first. *)
Definition le32 (x : Z) : string :=
  string_of_list_ascii
    (map (λ k, ascii_of_N (Z.to_N ((x / 2 ^ (8 * k)) mod 256))) [0; 1; 2; 3]).

Definition header (v n o t : Z) : string :=
  le32 0x950412de +:+ le32 v +:+ le32 n +:+ le32 o +:+ le32 t.

Definition entry (len off : Z) : string := le32 len +:+ le32 off.

End Build.

(** ** Vocabulary of the statements *)

(** [bytes[offset .. offset+length)]. *)
Definition slice (content : string) (e : mo_entry) : string :=
  String.substring (Z.to_nat (e_offset e)) (Z.to_nat (e_length e)) content.

(** The bound of an entry in exact arithmetic (two 32-bit values never
    overflow a 64-bit sum). *)
Definition entry_in_bounds (size : Z) (e : mo_entry) : Prop :=
  e_offset e + e_length e ≤ size.

Definition original_at (content : string) (header : mo_header) (i : Z)
    : option mo_entry :=
  read_entry (c_str content) (o_offset header) i.

Definition translated_at (content : string) (header : mo_header) (i : Z)
    : option mo_entry :=
  read_entry (c_str content) (t_offset header) i.

(** A buffer that passes the four gates on the header, the table bounds
    being taken in exact arithmetic. *)
Record header_ok (content : string) (header : mo_header) : Prop := {
  ok_size : sizeof_mo_header ≤ content_size content;
  ok_read : read_header (c_str content) = Some header;
  ok_magic : magic header = 0x950412de;
  ok_version : version header = 0 ∨ version header = 1;
  ok_original_table :
    o_offset header + 8 * number header ≤ content_size content;
  ok_translated_table :
    t_offset header + 8 * number header ≤ content_size content
}.

(** Every entry of the two tables with an index in [[lo, hi)] is within
    the buffer. *)
Definition entries_in_bounds (content : string) (header : mo_header)
    (lo hi : Z) : Prop :=
  ∀ j e, lo ≤ j < hi →
    original_at content header j = Some e
    ∨ translated_at content header j = Some e →
    entry_in_bounds (content_size content) e.

(** The diagnostics of the gates on the header. *)
Definition header_gate (d : diagnostic) : bool :=
  match d with
  | EntryOutOfBounds => false
  | _ => true
  end.

(** The pair of strings that entry [i] of the two tables denotes. *)
Definition entry_pair (content : string) (header : mo_header) (i : Z)
    : option (string * string) :=
  original ← original_at content header i;
  translated ← translated_at content header i;
  Some (slice content original, slice content translated).

(** The pairs of the [n] entries from index [i] on, in table order. *)
Fixpoint table_pairs (n : nat) (content : string) (header : mo_header)
    (i : Z) : list (string * string) :=
  match n with
  | O => []
  | S n' =>
      match entry_pair content header i with
      | Some p => p :: table_pairs n' content header (i + 1)
      | None => table_pairs n' content header (i + 1)
      end
  end.

(** [store_message] on each pair of a list, first to last. *)
Definition store_all (l : list (string * string))
    (hashmap_ : gmap string string) : gmap string string :=
  foldl (λ m p, store_message p.1 p.2 m) hashmap_ l.

(** ** Example buffers *)

Module Examples.
Import Build.

(** Two entries, ["a" -> "b"] and ["hello" -> "world"]. *)
Definition two_entries : string :=
  header 0 2 20 36 +:+ entry 1 52 +:+ entry 5 54
    +:+ entry 1 53 +:+ entry 5 59 +:+ "abhelloworld".

(** Two entries with the original string ["dup"], translated ["first"]
    and then ["second"]. *)
Definition duplicated : string :=
  header 0 2 20 36 +:+ entry 3 52 +:+ entry 3 55
    +:+ entry 5 58 +:+ entry 6 63 +:+ "dupdupfirstsecond".

(** ["a" -> "b"], then an original entry with [offset + length = size + 1]. *)
Definition second_entry_too_long : string :=
  header 0 2 20 36 +:+ entry 1 52 +:+ entry 2 53
    +:+ entry 1 53 +:+ entry 0 0 +:+ "ab".

(** A first entry with [offset + length = size + 1]. *)
Definition first_entry_too_long : string :=
  header 0 1 20 28 +:+ entry 2 35 +:+ entry 0 0.

(** A header alone that announces [2^29] entries at offset 0. *)
Definition huge_count : string := header 0 0x20000000 0 0.

(** [2^29 + 1] entries announced, one present. *)
Definition huge_count_one_entry : string :=
  header 0 0x20000001 20 20 +:+ entry 0 0.

(** One entry whose original string has length [2^32 - 1] at offset 1. *)
Definition wrapping_length : string :=
  header 0 1 20 28 +:+ entry 0xFFFFFFFF 1 +:+ entry 0 0.

(** One entry of length 2 at offset [2^32 - 1]. *)
Definition wrapping_offset : string :=
  header 0 1 20 20 +:+ entry 2 0xFFFFFFFF.

(** One entry, empty strings located at the very end of the buffer. *)
Definition empty_at_end : string :=
  header 0 1 20 20 +:+ entry 0 28.

(** No entry at all. *)
Definition no_entry : string := header 0 0 20 20.

Definition one_file (name contents : string) : files :=
  λ f, if String.eqb f name then Some contents else None.

End Examples.

(** ** Vocabulary of the further statements *)

(** The value of the first pair of [l] whose key is [k]. *)
Fixpoint first_match (k : string) (l : list (string * string))
    : option string :=
  match l with
  | [] => None
  | (k', v) :: l' => if decide (k' = k) then Some v else first_match k l'
  end.

(** How many times the character [c] occurs in [s]. *)
Fixpoint count_char (c : ascii) (s : string) : nat :=
  match s with
  | EmptyString => O
  | String x s' => ((if Ascii.eqb x c then 1 else 0) + count_char c s')%nat
  end.

(** [c] occurs in [s]. *)
Definition occurs (c : ascii) (s : string) : Prop :=
  In c (list_ascii_of_string s).

(** [s] is a part of [content]. *)
Definition part_of (s content : string) : Prop :=
  ∃ pos len : nat,
    s = String.substring pos len content
    ∧ (pos + len ≤ String.length content)%nat.

(** No entry below the count has a sum [offset + length] that wraps
    around in 32 bits. *)
Definition entries_no_wrap (content : string) (header : mo_header) : Prop :=
  ∀ i e, 0 ≤ i < number header →
    original_at content header i = Some e
    ∨ translated_at content header i = Some e →
    e_offset e + e_length e < 2 ^ 32.

(** Reading escaped text back, used to show that escaping loses nothing:
    a backslash announces a two-character escape. *)
Definition unescape_char (x : ascii) : ascii :=
  if Ascii.eqb x "n"%char then LF
  else if Ascii.eqb x "t"%char then TAB
  else if Ascii.eqb x "0"%char then NUL
  else x.

Fixpoint unescape (l : list ascii) : list ascii :=
  match l with
  | [] => []
  | c :: rest =>
      if Ascii.eqb c BACKSLASH
      then match rest with
           | [] => [c]
           | x :: rest' => unescape_char x :: unescape rest'
           end
      else c :: unescape rest
  end.

(** More buffers. *)
Module Cases.
Import Build.

(** Twenty bytes that do not start with the magic number. *)
Definition wrong_magic : string :=
  le32 0x12345678 +:+ le32 0 +:+ le32 0 +:+ le32 20 +:+ le32 20.

(** Version 2. *)
Definition version_two : string := header 2 0 20 20.

(** Three entries announced, none present. *)
Definition tables_too_long : string := header 0 3 20 20.

End Cases.

(** ** Writing a buffer

    The source only reads [.mo] buffers. To state that every catalog can
    be read back, here is the layout of a buffer for a list of pairs: the
    header, the table of the original strings, the table of the
    translated strings, then the strings, each original one followed by
    its translation. *)

Module Writer.
Import Build.

Definition len (s : string) : Z := Z.of_nat (String.length s).

(** The entries of the two tables, the strings being laid out from
    offset [pos] on. *)
Fixpoint layout (l : list (string * string)) (pos : Z)
    : list (mo_entry * mo_entry) :=
  match l with
  | [] => []
  | (k, v) :: l' =>
      ({| e_length := len k; e_offset := pos |},
       {| e_length := len v; e_offset := pos + len k |})
      :: layout l' (pos + len k + len v)
  end.

Fixpoint strings (l : list (string * string)) : string :=
  match l with
  | [] => EmptyString
  | (k, v) :: l' => k +:+ v +:+ strings l'
  end.

Fixpoint table (es : list mo_entry) : string :=
  match es with
  | [] => EmptyString
  | e :: es' => entry (e_length e) (e_offset e) +:+ table es'
  end.

(** The header that [write] puts first. *)
Definition header_of (l : list (string * string)) : mo_header :=
  let n := Z.of_nat (length l) in
  {| magic := 0x950412de; version := 0; number := n;
     o_offset := 20; t_offset := 20 + 8 * n |}.

Definition write (l : list (string * string)) : string :=
  let n := Z.of_nat (length l) in
  let es := layout l (20 + 16 * n) in
  header 0 n 20 (20 + 8 * n)
    +:+ table (es.*1) +:+ table (es.*2) +:+ strings l.

End Writer.

(** ** Tactics for closed buffers *)

(** Discharges [header_ok] on a closed buffer by evaluation. *)
Ltac closed_header_ok :=
  split; [by vm_compute | by vm_compute | reflexivity
         | (by left) || (by right) | by vm_compute | by vm_compute].

(** Discharges [entries_in_bounds c h lo hi] on a closed buffer, one index
    after the other. *)
Ltac closed_entries_from j He lo :=
  first
    [ exfalso; lia
    | destruct (decide (j = lo)) as [-> | ?];
      [ destruct He as [He | He]; vm_compute in He;
        injection He as <-; by vm_compute
      | let lo' := eval vm_compute in (lo + 1) in
        closed_entries_from j He lo' ] ].

Ltac closed_entries_in_bounds :=
  let j := fresh "j" in
  let e := fresh "e" in
  let Hj := fresh "Hj" in
  let He := fresh "He" in
  intros j e Hj He;
  match type of Hj with
  | ?lo ≤ j < _ => closed_entries_from j He lo
  end.

(** * Properties *)

(** ** Strings *)

Lemma get_is_Some (s : string) (n : nat) :
  (n < String.length s)%nat → is_Some (String.get n s).
Proof.
  revert n. induction s as [|c s IH]; intros [|n] Hn; simpl in *;
    try lia; eauto with lia.
Qed.

Lemma append_cons (c : ascii) (a b : string) :
  String c a +:+ b = String c (a +:+ b).
Proof. reflexivity. Qed.

Lemma append_nil_l (b : string) : "" +:+ b = b.
Proof. reflexivity. Qed.

Lemma append_nil_r (a : string) : a +:+ "" = a.
Proof.
  induction a as [|x a IH]; [done |].
  by rewrite append_cons, IH.
Qed.

Lemma length_append (a b : string) :
  String.length (a +:+ b) = (String.length a + String.length b)%nat.
Proof.
  induction a as [|x a IH]; [done |].
  rewrite append_cons. simpl. by rewrite IH.
Qed.

Lemma append_assoc (a b c : string) : (a +:+ b) +:+ c = a +:+ (b +:+ c).
Proof.
  induction a as [|x a IH]; [done |].
  by rewrite !append_cons, IH.
Qed.

Lemma string_of_list_ascii_app (l1 l2 : list ascii) :
  string_of_list_ascii (l1 ++ l2)
  = string_of_list_ascii l1 +:+ string_of_list_ascii l2.
Proof.
  induction l1 as [|c l1 IH]; [done |].
  simpl. by rewrite append_cons, IH.
Qed.

Lemma length_c_str (content : string) :
  Z.of_nat (String.length (c_str content)) = content_size content + 1.
Proof.
  unfold c_str, content_size. rewrite length_append. simpl. lia.
Qed.

Lemma substring_nil (s : string) (n : nat) : String.substring n 0 s = "".
Proof. revert n. induction s as [|c s IH]; intros [|n]; simpl; auto. Qed.

(** ** 32-bit values and reads *)

Lemma u32_range (x : Z) : 0 ≤ u32 x < 2 ^ 32.
Proof. unfold u32. apply Z.mod_pos_bound. lia. Qed.

Lemma u32_small (x : Z) : 0 ≤ x < 2 ^ 32 → u32 x = x.
Proof. intros. unfold u32. by apply Z.mod_small. Qed.

Lemma u32_le (x : Z) : 0 ≤ x → u32 x ≤ x.
Proof. intros. unfold u32. apply Z.mod_le; lia. Qed.

Lemma byte_at_range (mem : string) (a b : Z) :
  byte_at mem a = Some b → 0 ≤ b < 256.
Proof.
  unfold byte_at. destruct (a <? 0); [done |].
  destruct (String.get _ _) as [c|]; simpl; [| done].
  intros [= <-]. pose proof (N_ascii_bounded c). lia.
Qed.

Lemma byte_at_is_Some (mem : string) (a : Z) :
  0 ≤ a < Z.of_nat (String.length mem) → is_Some (byte_at mem a).
Proof.
  intros [H0 H1]. unfold byte_at.
  destruct (Z.ltb_spec a 0); [lia |].
  destruct (get_is_Some mem (Z.to_nat a)) as [c ->]; [lia |]. by eexists.
Qed.

Lemma read_u32_range (mem : string) (a v : Z) :
  read_u32 mem a = Some v → 0 ≤ v < 2 ^ 32.
Proof.
  unfold read_u32. intros H.
  destruct (byte_at mem a) as [b0|] eqn:E0; simpl in H; [| done].
  destruct (byte_at mem (a + 1)) as [b1|] eqn:E1; simpl in H; [| done].
  destruct (byte_at mem (a + 2)) as [b2|] eqn:E2; simpl in H; [| done].
  destruct (byte_at mem (a + 3)) as [b3|] eqn:E3; simpl in H; [| done].
  injection H as <-.
  apply byte_at_range in E0, E1, E2, E3. lia.
Qed.

Lemma read_u32_is_Some (mem : string) (a : Z) :
  0 ≤ a → a + 4 ≤ Z.of_nat (String.length mem) → is_Some (read_u32 mem a).
Proof.
  intros H0 H1. unfold read_u32.
  destruct (byte_at_is_Some mem a) as [b0 ->]; [lia |].
  destruct (byte_at_is_Some mem (a + 1)) as [b1 ->]; [lia |].
  destruct (byte_at_is_Some mem (a + 2)) as [b2 ->]; [lia |].
  destruct (byte_at_is_Some mem (a + 3)) as [b3 ->]; [lia |].
  by eexists.
Qed.

Lemma read_header_is_Some (content : string) :
  sizeof_mo_header ≤ content_size content →
  is_Some (read_header (c_str content)).
Proof.
  unfold sizeof_mo_header. intros H. unfold read_header.
  pose proof (length_c_str content) as L.
  destruct (read_u32_is_Some (c_str content) 0) as [m ->]; [lia .. |].
  destruct (read_u32_is_Some (c_str content) 4) as [v ->]; [lia .. |].
  destruct (read_u32_is_Some (c_str content) 8) as [n ->]; [lia .. |].
  destruct (read_u32_is_Some (c_str content) 12) as [o ->]; [lia .. |].
  destruct (read_u32_is_Some (c_str content) 16) as [t ->]; [lia .. |].
  by eexists.
Qed.

Lemma read_header_range (mem : string) (header : mo_header) :
  read_header mem = Some header →
  0 ≤ number header < 2 ^ 32 ∧ 0 ≤ o_offset header < 2 ^ 32
  ∧ 0 ≤ t_offset header < 2 ^ 32.
Proof.
  unfold read_header. intros H.
  destruct (read_u32 mem 0) as [m|] eqn:Em; simpl in H; [| done].
  destruct (read_u32 mem 4) as [v|] eqn:Ev; simpl in H; [| done].
  destruct (read_u32 mem 8) as [n|] eqn:En; simpl in H; [| done].
  destruct (read_u32 mem 12) as [o|] eqn:Eo; simpl in H; [| done].
  destruct (read_u32 mem 16) as [t|] eqn:Et; simpl in H; [| done].
  injection H as <-. simpl.
  apply read_u32_range in En, Eo, Et. lia.
Qed.

Lemma read_entry_range (mem : string) (table i : Z) (e : mo_entry) :
  read_entry mem table i = Some e →
  0 ≤ e_length e < 2 ^ 32 ∧ 0 ≤ e_offset e < 2 ^ 32.
Proof.
  unfold read_entry. intros H.
  destruct (read_u32 mem (table + _)) as [l|] eqn:El; simpl in H; [| done].
  destruct (read_u32 mem (table + _ + 4)) as [o|] eqn:Eo; simpl in H; [| done].
  injection H as <-. simpl.
  apply read_u32_range in El, Eo. lia.
Qed.

Lemma read_entry_is_Some (content : string) (table i : Z) :
  0 ≤ table → 0 ≤ i → table + 8 * (i + 1) ≤ content_size content →
  is_Some (read_entry (c_str content) table i).
Proof.
  intros Ht Hi Hb. unfold read_entry, sizeof_mo_entry.
  pose proof (length_c_str content) as L.
  destruct (read_u32_is_Some (c_str content) (table + 8 * i)) as [l ->];
    [lia .. |].
  destruct (read_u32_is_Some (c_str content) (table + 8 * i + 4)) as [o ->];
    [lia .. |].
  by eexists.
Qed.

(** ** Escaping *)

Lemma escape_char_image (c : ascii) :
  escape_char c = string_of_list_ascii (EscapeSpec.image c).
Proof.
  unfold escape_char, EscapeSpec.image.
  destruct (Ascii.eqb_spec c LF); destruct (decide (c = LF)); try done.
  destruct (Ascii.eqb_spec c TAB); destruct (decide (c = TAB)); try done.
  destruct (Ascii.eqb_spec c NUL); destruct (decide (c = NUL)); try done.
  destruct (Ascii.eqb_spec c DQUOTE); destruct (decide (c = DQUOTE));
    try done.
  destruct (Ascii.eqb_spec c BACKSLASH); destruct (decide (c = BACKSLASH));
    done.
Qed.

Lemma escape_loop_images (str result : string) :
  escape_loop str result
  = result +:+ string_of_list_ascii
                 (concat (map EscapeSpec.image (list_ascii_of_string str))).
Proof.
  revert result. induction str as [|c str IH]; intros result; simpl.
  - by rewrite append_nil_r.
  - rewrite IH, string_of_list_ascii_app, escape_char_image.
    by rewrite append_assoc.
Qed.

(** C5. For every byte string, [quote_escape_string] yields the opening
    double quote, then the image of each byte in order (newline, tab, NUL,
    double quote and backslash as their two-character escapes, any other
    byte unchanged), then the closing double quote. *)
Theorem quote_escape_string_spec (s : string) :
  quote_escape_string s = EscapeSpec.escape s.
Proof.
  unfold quote_escape_string, EscapeSpec.escape.
  rewrite escape_loop_images, !string_of_list_ascii_app.
  by rewrite append_assoc.
Qed.

(** The example of the specification: [a], newline, [b], double quote,
    [c], backslash, [d]. *)
Example quote_escape_string_example :
  quote_escape_string
    ("a" +:+ chr LF +:+ "b" +:+ chr DQUOTE +:+ "c" +:+ chr BACKSLASH +:+ "d")
  = chr DQUOTE +:+ "a" +:+ chr BACKSLASH +:+ "nb" +:+ chr BACKSLASH
      +:+ chr DQUOTE +:+ "c" +:+ chr BACKSLASH +:+ chr BACKSLASH +:+ "d"
      +:+ chr DQUOTE.
Proof. reflexivity. Qed.

(** A byte outside of ASCII goes through unchanged. *)
Example quote_escape_string_high_byte :
  quote_escape_string (chr "233"%char)
  = chr DQUOTE +:+ chr "233"%char +:+ chr DQUOTE.
Proof. reflexivity. Qed.

(** ** [store_message] *)

Lemma store_message_size (k v : string) (m : gmap string string) :
  (size (store_message k v m) ≤ S (size m))%nat.
Proof.
  unfold store_message. destruct (m !! k) eqn:E; [lia |].
  rewrite map_size_insert_None by done. lia.
Qed.

Lemma store_message_fresh (k v : string) (m : gmap string string) :
  m !! k = None → store_message k v m !! k = Some v.
Proof. intros E. unfold store_message. rewrite E. apply lookup_insert_eq. Qed.

Lemma store_message_keeps (k v k' v' : string) (m : gmap string string) :
  m !! k = Some v → store_message k' v' m !! k = Some v.
Proof.
  intros E. unfold store_message. destruct (m !! k') eqn:E'; [done |].
  rewrite lookup_insert_ne; [done |]. congruence.
Qed.

Lemma store_message_union (k v : string) (m rest : gmap string string) :
  store_message k v m ∪ rest = m ∪ <[k := v]> rest.
Proof.
  apply map_eq. intros x. unfold store_message.
  destruct (m !! k) eqn:E; rewrite !lookup_union.
  - destruct (decide (k = x)) as [<- |].
    + rewrite E, lookup_insert_eq. by destruct (rest !! k).
    + by rewrite lookup_insert_ne.
  - destruct (decide (k = x)) as [<- |].
    + rewrite E, !lookup_insert_eq. by destruct (rest !! k).
    + by rewrite !lookup_insert_ne.
Qed.

Lemma store_all_union (l : list (string * string)) (m : gmap string string) :
  store_all l m = m ∪ list_to_map l.
Proof.
  revert m. induction l as [|[k v] l IH]; intros m; simpl.
  - by rewrite (right_id_L ∅ (∪)).
  - unfold store_all in *. simpl. rewrite IH. apply store_message_union.
Qed.

Lemma store_all_empty (l : list (string * string)) :
  store_all l ∅ = list_to_map l.
Proof. by rewrite store_all_union, (left_id_L ∅ (∪)). Qed.

(** ** One iteration *)

Section Iteration.
Variables (content : string) (header : mo_header).

Lemma entry_fits_in_bounds (e : mo_entry) :
  0 ≤ e_length e → 0 ≤ e_offset e →
  entry_in_bounds (content_size content) e →
  entry_fits (content_size content) e = true.
Proof.
  unfold entry_in_bounds, entry_fits. intros Hl Ho Hb.
  apply Z.leb_le. pose proof (u32_le (e_offset e + e_length e)). lia.
Qed.

Lemma substr_in_bounds (e : mo_entry) :
  0 ≤ e_length e → 0 ≤ e_offset e →
  entry_in_bounds (content_size content) e →
  substr content (e_offset e) (e_length e) = Some (slice content e).
Proof.
  unfold entry_in_bounds, substr, slice. intros Hl Ho Hb.
  destruct (Z.ltb_spec (content_size content) (e_offset e)); [lia |].
  by rewrite Z.min_l by lia.
Qed.

Lemma loop_body_stored (i : Z) (original translated : mo_entry) :
  original_at content header i = Some original →
  translated_at content header i = Some translated →
  entry_in_bounds (content_size content) original →
  entry_in_bounds (content_size content) translated →
  loop_body content header i
  = Stored (slice content original) (slice content translated).
Proof.
  unfold original_at, translated_at, loop_body. intros Eo Et Bo Bt.
  rewrite Eo, Et.
  apply read_entry_range in Eo, Et.
  rewrite !entry_fits_in_bounds by (done || lia). simpl.
  by rewrite !substr_in_bounds by (done || lia).
Qed.

Lemma loop_body_premature (i : Z) (original translated : mo_entry) :
  original_at content header i = Some original →
  translated_at content header i = Some translated →
  entry_fits (content_size content) original = false
  ∨ entry_fits (content_size content) translated = false →
  loop_body content header i = Stop (Returned (Some EntryOutOfBounds)).
Proof.
  unfold original_at, translated_at, loop_body. intros -> -> H.
  destruct (entry_fits _ original); simpl; [| done].
  destruct H as [H | ->]; done.
Qed.

(** The only diagnostic of an iteration is [EntryOutOfBounds]. *)
Lemma loop_body_diagnostic (i : Z) (d : option diagnostic) :
  loop_body content header i = Stop (Returned d) →
  d = Some EntryOutOfBounds.
Proof.
  unfold loop_body. intros H.
  repeat (match type of H with
          | context [match ?x with _ => _ end] => destruct x
          end; simpl in H; try congruence).
Qed.

End Iteration.

(** ** The loop *)

Section Loop.
Variables (content : string) (header : mo_header).

Lemma entries_loop_stop (todo : nat) (i : Z) (m : gmap string string)
    (o : outcome) :
  loop_body content header i = Stop o →
  entries_loop (S todo) content header i m = (o, m).
Proof. intros H. simpl. by rewrite H. Qed.

Lemma entries_loop_step (todo : nat) (i : Z) (m : gmap string string)
    (k v : string) :
  loop_body content header i = Stored k v →
  entries_loop (S todo) content header i m
  = entries_loop todo content header (i + 1) (store_message k v m).
Proof. intros H. simpl. by rewrite H. Qed.

Lemma entries_loop_size (todo : nat) (i : Z) (m : gmap string string) :
  (size (entries_loop todo content header i m).2 ≤ size m + todo)%nat.
Proof.
  revert i m. induction todo as [|todo IH]; intros i m; simpl; [lia |].
  destruct (loop_body content header i) as [k v | o]; simpl; [| lia].
  specialize (IH (i + 1) (store_message k v m)).
  pose proof (store_message_size k v m). lia.
Qed.

Lemma entries_loop_keeps (todo : nat) (i : Z) (m : gmap string string)
    (k v : string) :
  m !! k = Some v →
  (entries_loop todo content header i m).2 !! k = Some v.
Proof.
  revert i m. induction todo as [|todo IH]; intros i m E; simpl; [done |].
  destruct (loop_body content header i) as [k' v' | o]; simpl; [| done].
  apply IH. by apply store_message_keeps.
Qed.

Lemma entries_loop_diagnostic (todo : nat) (i : Z) (m : gmap string string)
    (d : diagnostic) :
  (entries_loop todo content header i m).1 = Returned (Some d) →
  d = EntryOutOfBounds.
Proof.
  revert i m. induction todo as [|todo IH]; intros i m; simpl; [done |].
  destruct (loop_body content header i) as [k' v' | o] eqn:E; simpl.
  - apply IH.
  - intros ->. apply loop_body_diagnostic in E. congruence.
Qed.

(** [n] iterations on entries that are read and within the buffer store
    their pairs and leave the rest of the loop to run. *)
Lemma entries_loop_run (n todo : nat) (i : Z) (m : gmap string string) :
  (∀ j, i ≤ j < i + Z.of_nat n →
     is_Some (original_at content header j)
     ∧ is_Some (translated_at content header j)) →
  entries_in_bounds content header i (i + Z.of_nat n) →
  entries_loop (n + todo) content header i m
  = entries_loop todo content header (i + Z.of_nat n)
      (store_all (table_pairs n content header i) m).
Proof.
  revert i m. induction n as [|n IH]; intros i m Hread Hin.
  - simpl. by rewrite Z.add_0_r.
  - destruct (Hread i) as [[o Eo] [t Et]]; [lia |].
    change (S n + todo)%nat with (S (n + todo)). simpl.
    rewrite (loop_body_stored content header i o t); try done.
    2, 3: apply (Hin i); [lia | auto].
    unfold entry_pair. rewrite Eo, Et. simpl.
    rewrite IH.
    + f_equal. lia.
    + intros j Hj. apply Hread. lia.
    + intros j e Hj. apply Hin. lia.
Qed.

Lemma elem_of_table_pairs (n : nat) (i : Z) (p : string * string) :
  p ∈ table_pairs n content header i →
  ∃ j, i ≤ j < i + Z.of_nat n ∧ entry_pair content header j = Some p.
Proof.
  revert i. induction n as [|n IH]; intros i; simpl.
  - by intros ?%elem_of_nil.
  - destruct (entry_pair content header i) as [q|] eqn:E.
    + intros [-> | H]%elem_of_cons.
      * exists i. split; [lia | done].
      * destruct (IH _ H) as (j & Hj & Ej). exists j. split; [lia | done].
    + intros H. destruct (IH _ H) as (j & Hj & Ej).
      exists j. split; [lia | done].
Qed.

End Loop.

(** ** The gates on the header *)

Lemma tables_fit_exact (size : Z) (header : mo_header) :
  0 ≤ number header → 0 ≤ o_offset header → 0 ≤ t_offset header →
  o_offset header + 8 * number header ≤ size →
  t_offset header + 8 * number header ≤ size →
  tables_fit size header = true.
Proof.
  intros Hn Ho Ht Bo Bt. unfold tables_fit.
  pose proof (u32_le (8 * number header)).
  pose proof (u32_range (8 * number header)).
  pose proof (u32_le (o_offset header + u32 (8 * number header))).
  pose proof (u32_le (t_offset header + u32 (8 * number header))).
  apply andb_true_iff. split; apply Z.leb_le; lia.
Qed.

(** Without any wrap-around the gate of the code is the exact one. *)
Lemma tables_fit_no_wrap (size : Z) (header : mo_header) :
  0 ≤ number header → 0 ≤ o_offset header → 0 ≤ t_offset header →
  o_offset header + 8 * number header < 2 ^ 32 →
  t_offset header + 8 * number header < 2 ^ 32 →
  tables_fit size header = true
  ↔ o_offset header + 8 * number header ≤ size
    ∧ t_offset header + 8 * number header ≤ size.
Proof.
  intros Hn Ho Ht Bo Bt. unfold tables_fit.
  rewrite (u32_small (8 * number header)) by lia.
  rewrite !u32_small by lia.
  rewrite andb_true_iff, !Z.leb_le. done.
Qed.

Lemma entry_fits_no_wrap (size : Z) (e : mo_entry) :
  0 ≤ e_offset e + e_length e < 2 ^ 32 →
  entry_fits size e = true ↔ entry_in_bounds size e.
Proof.
  intros H. unfold entry_fits, entry_in_bounds.
  by rewrite u32_small, Z.leb_le.
Qed.

(** The gates as the code evaluates them. *)
Lemma process_gates_passed (content : string) (header : mo_header)
    (m : gmap string string) :
  sizeof_mo_header ≤ content_size content →
  read_header (c_str content) = Some header →
  magic header = 0x950412de →
  version header = 0 ∨ version header = 1 →
  tables_fit (content_size content) header = true →
  process_mo_contents content m
  = entries_loop (Z.to_nat (number header)) content header 0 m.
Proof.
  intros Hs Hr Hm Hv Ht. unfold process_mo_contents.
  destruct (Z.ltb_spec (content_size content) sizeof_mo_header); [lia |].
  rewrite Hr, Hm, Ht. simpl.
  by destruct Hv as [-> | ->].
Qed.

Lemma process_header_ok (content : string) (header : mo_header)
    (m : gmap string string) :
  header_ok content header →
  process_mo_contents content m
  = entries_loop (Z.to_nat (number header)) content header 0 m.
Proof.
  intros [Hs Hr Hm Hv Ho Ht].
  destruct (read_header_range _ _ Hr) as (Rn & Ro & Rt).
  apply process_gates_passed; try done.
  apply tables_fit_exact; lia.
Qed.

Lemma entries_readable (content : string) (header : mo_header) (j : Z) :
  header_ok content header → 0 ≤ j < number header →
  is_Some (original_at content header j)
  ∧ is_Some (translated_at content header j).
Proof.
  intros [Hs Hr Hm Hv Ho Ht] Hj.
  destruct (read_header_range _ _ Hr) as (Rn & Ro & Rt).
  split; apply read_entry_is_Some; lia.
Qed.

(** The loop split at index [i]: the entries before [i] being read and
    within the buffer, the loop reaches [i] with their pairs stored. *)
Lemma decode_reaches (content : string) (header : mo_header) (i : Z) :
  header_ok content header →
  0 ≤ i < number header →
  entries_in_bounds content header 0 i →
  decode_mo content
  = entries_loop (S (Z.to_nat (number header - i - 1))) content header i
      (list_to_map (table_pairs (Z.to_nat i) content header 0)).
Proof.
  intros Hok Hi Hin. unfold decode_mo.
  rewrite (process_header_ok content header) by done.
  replace (Z.to_nat (number header))
    with (Z.to_nat i + S (Z.to_nat (number header - i - 1)))%nat by lia.
  rewrite entries_loop_run.
  - rewrite store_all_empty. f_equal. lia.
  - intros j Hj. apply entries_readable; [done | lia].
  - intros j e Hj. apply Hin. lia.
Qed.

(** ** The size gate *)

(** C8. A buffer of fewer than 20 bytes, the size of the five 32-bit
    fields of the header, is refused whatever it holds: the diagnostic is
    [TooSmall] and its message states the size found and the minimum of
    20. *)
Theorem too_small_is_refused (content : string) :
  content_size content < 20 →
  decode_mo content
  = (Returned (Some (TooSmall (content_size content) sizeof_mo_header)), ∅)
  ∧ message (TooSmall (content_size content) sizeof_mo_header)
    = "content too small: " +:+ pretty (content_size content)
        +:+ " bytes found, expected 20 at least" +:+ nl.
Proof.
  intros H. split; [| reflexivity].
  unfold decode_mo, process_mo_contents.
  by destruct (Z.ltb_spec (content_size content) sizeof_mo_header);
    [| unfold sizeof_mo_header in *; lia].
Qed.

Lemma too_small_is_refused_witness :
  content_size "abc" < 20
  ∧ decode_mo "abc" = (Returned (Some (TooSmall 3 20)), ∅).
Proof.
  split; [by vm_compute |].
  apply (too_small_is_refused "abc"). by vm_compute.
Defined.

(** ** The gates on the magic number, the version and the tables *)

(** X1. A buffer of 20 bytes or more whose first four bytes are not the
    magic number is refused with [BadMagic], whatever the rest of the
    header says, and nothing is stored. *)
Lemma bad_magic_is_refused (content : string) (header : mo_header) :
  sizeof_mo_header ≤ content_size content →
  read_header (c_str content) = Some header →
  magic header ≠ 0x950412de →
  decode_mo content = (Returned (Some BadMagic), ∅).
Proof.
  intros Hs Hr Hm. unfold decode_mo, process_mo_contents.
  destruct (Z.ltb_spec (content_size content) sizeof_mo_header); [lia |].
  rewrite Hr. by destruct (Z.eqb_spec (magic header) 0x950412de).
Qed.

(** X2. With the right magic number, a version field of 2 or more is
    refused with [BadVersion], which reports the value found; nothing is
    stored. *)
Lemma bad_version_is_refused (content : string) (header : mo_header) :
  sizeof_mo_header ≤ content_size content →
  read_header (c_str content) = Some header →
  magic header = 0x950412de →
  2 ≤ version header →
  decode_mo content = (Returned (Some (BadVersion (version header))), ∅).
Proof.
  intros Hs Hr Hm Hv. unfold decode_mo, process_mo_contents.
  destruct (Z.ltb_spec (content_size content) sizeof_mo_header); [lia |].
  rewrite Hr, Hm. simpl.
  destruct (Z.eqb_spec (version header) 0); [lia |].
  by destruct (Z.eqb_spec (version header) 1); [lia |].
Qed.

(** X3. When the two 32-bit sums [offset + 8 * number] do not wrap around,
    a header that passes the gates before and whose original or translated
    table reaches past the end of the buffer is refused with
    [TableOutOfBounds]; nothing is stored. *)
Lemma table_out_of_bounds_is_refused (content : string)
    (header : mo_header) :
  sizeof_mo_header ≤ content_size content →
  read_header (c_str content) = Some header →
  magic header = 0x950412de →
  version header = 0 ∨ version header = 1 →
  o_offset header + 8 * number header < 2 ^ 32 →
  t_offset header + 8 * number header < 2 ^ 32 →
  content_size content < o_offset header + 8 * number header
  ∨ content_size content < t_offset header + 8 * number header →
  decode_mo content = (Returned (Some TableOutOfBounds), ∅).
Proof.
  intros Hs Hr Hm Hv Wo Wt Hout. unfold decode_mo, process_mo_contents.
  destruct (Z.ltb_spec (content_size content) sizeof_mo_header); [lia |].
  rewrite Hr, Hm. simpl.
  destruct (read_header_range _ _ Hr) as (Rn & Ro & Rt).
  destruct (tables_fit (content_size content) header) eqn:E.
  - apply tables_fit_no_wrap in E; lia.
  - by destruct Hv as [-> | ->].
Qed.

(** ** No entry *)

(** C7. A buffer that passes the gates on the size, the magic number, the
    version and the table bounds, and whose count is 0, decodes without
    any diagnostic into the empty catalog. *)
Theorem no_entry_is_success (content : string) (header : mo_header) :
  header_ok content header →
  number header = 0 →
  decode_mo content = (Returned None, ∅).
Proof.
  intros Hok Hn. unfold decode_mo.
  rewrite (process_header_ok content header) by done.
  by rewrite Hn.
Qed.

Lemma no_entry_is_success_witness :
  let header := {| magic := 0x950412de; version := 0; number := 0;
                   o_offset := 20; t_offset := 20 |} in
  header_ok Examples.no_entry header
  ∧ decode_mo Examples.no_entry = (Returned None, ∅).
Proof.
  intros header.
  assert (header_ok Examples.no_entry header) as Hok by closed_header_ok.
  split; [done |].
  by apply (no_entry_is_success Examples.no_entry header).
Defined.

(** ** The size of the catalog *)

(** C10. Whatever the buffer and however decoding ends, the catalog holds
    no more entries than the count field of the header says, and none at
    all when the diagnostic is one of the gates on the header. *)
Theorem catalog_size_bounded (content : string) :
  (∀ header, read_header (c_str content) = Some header →
     Z.of_nat (size (decode_mo content).2) ≤ number header)
  ∧ (∀ d, (decode_mo content).1 = Returned (Some d) →
       header_gate d = true → (decode_mo content).2 = ∅).
Proof.
  unfold decode_mo, process_mo_contents. split.
  - intros header Hr. rewrite Hr.
    destruct (read_header_range _ _ Hr) as (Rn & _).
    repeat (match goal with
            | |- context [if ?b then _ else _] => destruct b
            end; simpl; [rewrite map_size_empty; lia |]).
    pose proof (entries_loop_size content header
                  (Z.to_nat (number header)) 0 ∅) as H.
    rewrite map_size_empty in H. lia.
  - intros d.
    repeat (match goal with
            | |- context [if ?b then _ else _] => destruct b
            | |- context [match ?o with Some _ => _ | None => _ end] =>
                destruct o
            end; simpl; try done).
    intros ->%entries_loop_diagnostic. done.
Qed.

Lemma catalog_size_bounded_witness :
  let header := {| magic := 0x950412de; version := 0; number := 2;
                   o_offset := 20; t_offset := 36 |} in
  read_header (c_str Examples.second_entry_too_long) = Some header
  ∧ Z.of_nat (size (decode_mo Examples.second_entry_too_long).2) ≤ 2.
Proof.
  intros header.
  assert (read_header (c_str Examples.second_entry_too_long) = Some header)
    as Hr by reflexivity.
  split; [done |].
  apply (proj1 (catalog_size_bounded Examples.second_entry_too_long)
           header Hr).
Defined.

(** ** Empty strings *)

Lemma store_message_is_Some (k v : string) (m : gmap string string) :
  is_Some (store_message k v m !! k).
Proof.
  unfold store_message. destruct (m !! k) eqn:E.
  - rewrite E. by eexists.
  - rewrite lookup_insert_eq. by eexists.
Qed.

(** C6. An entry of length 0 whose offset is at most the size of the
    buffer (the end of the buffer included) is accepted and its string is
    the empty one, for the original entry and for the translated one, the
    other entry of the index being within the buffer. The loop at this
    index stores the pair, with the empty string in it, and goes on with
    the next index. In a buffer that passes the gates on the header and
    whose earlier entries are within the buffer, decoding gets to the
    index, stores the pair and goes on: the key of the pair (the empty
    string when the original entry has length 0) is a key of the
    catalog, however decoding ends afterwards. *)
Theorem zero_length_entry_accepted (content : string) (header : mo_header)
    (i : Z) (original translated : mo_entry) :
  original_at content header i = Some original →
  translated_at content header i = Some translated →
  (e_length original = 0 →
   e_offset original ≤ content_size content →
   entry_in_bounds (content_size content) translated →
   (∀ todo m,
      entries_loop (S todo) content header i m
      = entries_loop todo content header (i + 1)
          (store_message "" (slice content translated) m))
   ∧ (header_ok content header →
      0 ≤ i < number header →
      entries_in_bounds content header 0 i →
      decode_mo content
      = entries_loop (Z.to_nat (number header - i - 1)) content header
          (i + 1)
          (store_message "" (slice content translated)
             (list_to_map (table_pairs (Z.to_nat i) content header 0)))
      ∧ is_Some ((decode_mo content).2 !! "")))
  ∧ (e_length translated = 0 →
     e_offset translated ≤ content_size content →
     entry_in_bounds (content_size content) original →
     (∀ todo m,
        entries_loop (S todo) content header i m
        = entries_loop todo content header (i + 1)
            (store_message (slice content original) "" m))
     ∧ (header_ok content header →
        0 ≤ i < number header →
        entries_in_bounds content header 0 i →
        decode_mo content
        = entries_loop (Z.to_nat (number header - i - 1)) content header
            (i + 1)
            (store_message (slice content original) ""
               (list_to_map (table_pairs (Z.to_nat i) content header 0)))
        ∧ is_Some ((decode_mo content).2 !! slice content original))).
Proof.
  intros Eo Et. split; intros Hl Hoff Hin.
  - assert (loop_body content header i
            = Stored "" (slice content translated)) as Hbody.
    { rewrite (loop_body_stored content header i original translated);
        [| done | done | unfold entry_in_bounds; lia | done].
      unfold slice at 1. by rewrite Hl, substring_nil. }
    assert (∀ todo m,
              entries_loop (S todo) content header i m
              = entries_loop todo content header (i + 1)
                  (store_message "" (slice content translated) m))
      as Hstep by (intros todo m; by apply entries_loop_step).
    split; [done |]. intros Hok Hi Hbefore.
    assert (decode_mo content
            = entries_loop (Z.to_nat (number header - i - 1)) content
                header (i + 1)
                (store_message "" (slice content translated)
                   (list_to_map
                      (table_pairs (Z.to_nat i) content header 0))))
      as Hd by (rewrite (decode_reaches content header i) by done;
                apply Hstep).
    split; [done |]. rewrite Hd.
    destruct (store_message_is_Some "" (slice content translated)
                (list_to_map (table_pairs (Z.to_nat i) content header 0)))
      as [x Hx].
    exists x. by apply entries_loop_keeps.
  - assert (loop_body content header i
            = Stored (slice content original) "") as Hbody.
    { rewrite (loop_body_stored content header i original translated);
        [| done | done | done | unfold entry_in_bounds; lia].
      unfold slice at 2. by rewrite Hl, substring_nil. }
    assert (∀ todo m,
              entries_loop (S todo) content header i m
              = entries_loop todo content header (i + 1)
                  (store_message (slice content original) "" m))
      as Hstep by (intros todo m; by apply entries_loop_step).
    split; [done |]. intros Hok Hi Hbefore.
    assert (decode_mo content
            = entries_loop (Z.to_nat (number header - i - 1)) content
                header (i + 1)
                (store_message (slice content original) ""
                   (list_to_map
                      (table_pairs (Z.to_nat i) content header 0))))
      as Hd by (rewrite (decode_reaches content header i) by done;
                apply Hstep).
    split; [done |]. rewrite Hd.
    destruct (store_message_is_Some (slice content original) ""
                (list_to_map (table_pairs (Z.to_nat i) content header 0)))
      as [x Hx].
    exists x. by apply entries_loop_keeps.
Qed.

(** On the buffer whose only entry, original and translated, has length
    0 and points to the very end: decoding succeeds and the catalog maps
    the empty string to the empty string. *)
Lemma zero_length_entry_accepted_witness :
  let header := {| magic := 0x950412de; version := 0; number := 1;
                   o_offset := 20; t_offset := 20 |} in
  let e := {| e_length := 0; e_offset := 28 |} in
  content_size Examples.empty_at_end = 28
  ∧ original_at Examples.empty_at_end header 0 = Some e
  ∧ translated_at Examples.empty_at_end header 0 = Some e
  ∧ decode_mo Examples.empty_at_end = (Returned None, {[ "" := "" ]})
  ∧ (∀ todo m,
       entries_loop (S todo) Examples.empty_at_end header 0 m
       = entries_loop todo Examples.empty_at_end header 1
           (store_message "" "" m)).
Proof.
  intros header e.
  split; [reflexivity |]. split; [reflexivity |]. split; [reflexivity |].
  destruct (proj1 (zero_length_entry_accepted Examples.empty_at_end header
                     0 e e eq_refl eq_refl))
    as [Hloop Hdecode];
    [reflexivity | by vm_compute | by vm_compute |].
  split; [| exact Hloop].
  destruct Hdecode as [Hd _].
  - closed_header_ok.
  - by vm_compute.
  - intros j x Hj. exfalso. lia.
  - rewrite Hd. reflexivity.
Defined.

(** The same buffer through the whole decoder. *)
Example empty_at_end_decoded :
  decode_mo Examples.empty_at_end = (Returned None, {[ "" := "" ]}).
Proof. by vm_compute. Qed.

(** ** Duplicated keys *)

(** C3. When several entries have the same original string, the one with
    the smallest index wins: if entry [i] is the first whose original
    string is [k], the entries up to [i] being within the buffer, the
    catalog maps [k] to the translation of entry [i], whatever the later
    entries with the same original string say; and the catalog has one
    entry per key at most. *)
Theorem first_duplicate_wins (content : string) (header : mo_header)
    (i : Z) (k v : string) :
  header_ok content header →
  0 ≤ i < number header →
  entries_in_bounds content header 0 (i + 1) →
  entry_pair content header i = Some (k, v) →
  (∀ j v', 0 ≤ j < i → entry_pair content header j ≠ Some (k, v')) →
  (decode_mo content).2 !! k = Some v
  ∧ NoDup (map_to_list (decode_mo content).2).*1.
Proof.
  intros Hok Hi Hin Ei Hfirst. split; [| apply NoDup_fst_map_to_list].
  rewrite (decode_reaches content header i); try done.
  2: { intros j e Hj. apply Hin. lia. }
  unfold entry_pair in Ei.
  destruct (original_at content header i) as [o|] eqn:Eo; [| done].
  destruct (translated_at content header i) as [t|] eqn:Et; [| done].
  simpl in Ei. injection Ei as <- <-. simpl.
  rewrite (loop_body_stored content header i o t); try done.
  2, 3: apply (Hin i); [lia | auto].
  apply entries_loop_keeps, store_message_fresh.
  apply not_elem_of_list_to_map_1.
  intros ([k' v'] & Hk & Hp)%list_elem_of_fmap. simpl in Hk. subst k'.
  apply elem_of_table_pairs in Hp as (j & Hj & Ej).
  apply (Hfirst j v'); [lia | done].
Qed.

Lemma first_duplicate_wins_witness :
  let header := {| magic := 0x950412de; version := 0; number := 2;
                   o_offset := 20; t_offset := 36 |} in
  entry_pair Examples.duplicated header 0 = Some ("dup", "first")
  ∧ entry_pair Examples.duplicated header 1 = Some ("dup", "second")
  ∧ (decode_mo Examples.duplicated).2 !! "dup" = Some "first".
Proof.
  intros header.
  split; [reflexivity |]. split; [reflexivity |].
  apply (first_duplicate_wins Examples.duplicated header 0 "dup" "first").
  - closed_header_ok.
  - by vm_compute.
  - closed_entries_in_bounds.
  - reflexivity.
  - intros j v' Hj. exfalso. lia.
Defined.

(** The buffer of the specification, decoded. *)
Example duplicated_decoded :
  decode_mo Examples.duplicated = (Returned None, {[ "dup" := "first" ]}).
Proof. by vm_compute. Qed.

Example two_entries_decoded :
  decode_mo Examples.two_entries
  = (Returned None, {[ "a" := "b"; "hello" := "world" ]}).
Proof. by vm_compute. Qed.

(** ** An entry out of bounds *)

(** C1, as the specification states it, fails: here entry 0 is valid and
    entry 1 has [offset + length = size + 1]; decoding stops on entry 1
    and the catalog still holds the pair of entry 0. *)
Lemma partial_catalog_counterexample :
  let content := Examples.second_entry_too_long in
  let header := {| magic := 0x950412de; version := 0; number := 2;
                   o_offset := 20; t_offset := 36 |} in
  let e := {| e_length := 2; e_offset := 53 |} in
  read_header (c_str content) = Some header
  ∧ original_at content header 1 = Some e
  ∧ e_offset e + e_length e = content_size content + 1
  ∧ decode_mo content = (Returned (Some EntryOutOfBounds), {[ "a" := "b" ]})
  ∧ (decode_mo content).2 ≠ ∅.
Proof.
  repeat split; try reflexivity.
  intros H. apply (f_equal (λ m : gmap string string, m !! "a")) in H.
  by vm_compute in H.
Qed.

(** C1, amended. When the buffer passes the gates on the header, the
    entries before index [i] are within the buffer and an entry of index
    [i] fails the check of the code (its 32-bit sum [offset + length]
    exceeds the size of the buffer), decoding stops with the diagnostic
    [EntryOutOfBounds], which names no index, and the catalog keeps the
    pairs of the entries before [i], the first one for each key. *)
Theorem entry_failure_keeps_earlier_entries (content : string)
    (header : mo_header) (i : Z) (e : mo_entry) :
  header_ok content header →
  0 ≤ i < number header →
  entries_in_bounds content header 0 i →
  original_at content header i = Some e
  ∨ translated_at content header i = Some e →
  entry_fits (content_size content) e = false →
  decode_mo content
  = (Returned (Some EntryOutOfBounds),
     list_to_map (table_pairs (Z.to_nat i) content header 0)).
Proof.
  intros Hok Hi Hin He Hfail.
  rewrite (decode_reaches content header i) by done.
  apply entries_loop_stop.
  destruct (entries_readable content header i Hok Hi) as [[o Eo] [t Et]].
  apply (loop_body_premature content header i o t Eo Et).
  destruct He as [He | He]; [left | right]; congruence.
Qed.

Lemma entry_failure_keeps_earlier_entries_witness :
  let content := Examples.second_entry_too_long in
  let header := {| magic := 0x950412de; version := 0; number := 2;
                   o_offset := 20; t_offset := 36 |} in
  header_ok content header
  ∧ table_pairs 1 content header 0 = [("a", "b")]
  ∧ decode_mo content
    = (Returned (Some EntryOutOfBounds), list_to_map [("a", "b")]).
Proof.
  intros content header.
  assert (header_ok content header) as Hok by closed_header_ok.
  split; [done |]. split; [reflexivity |].
  apply (entry_failure_keeps_earlier_entries content header 1
           {| e_length := 2; e_offset := 53 |} Hok).
  - by vm_compute.
  - closed_entries_in_bounds.
  - by left.
  - reflexivity.
Defined.

(** ** The check on an entry *)

(** C4, as the specification states it, fails twice. The sum of the check
    is a 32-bit one: an original entry of length [2^32 - 1] at offset 1
    passes it in a buffer of 36 bytes, and the string stored is what the
    buffer has from offset 1 on, 35 bytes. And the diagnostic names no
    index: a failure on entry 0 and one on entry 1 are reported alike. *)
Lemma entry_check_counterexample :
  let content := Examples.wrapping_length in
  let header := {| magic := 0x950412de; version := 0; number := 1;
                   o_offset := 20; t_offset := 28 |} in
  let e := {| e_length := 0xFFFFFFFF; e_offset := 1 |} in
  (read_header (c_str content) = Some header
   ∧ original_at content header 0 = Some e
   ∧ content_size content = 36
   ∧ content_size content < e_offset e + e_length e
   ∧ decode_mo content
     = (Returned None, {[ String.substring 1 35 content := "" ]}))
  ∧ ((decode_mo Examples.first_entry_too_long).1
     = Returned (Some EntryOutOfBounds)
     ∧ (decode_mo Examples.second_entry_too_long).1
       = Returned (Some EntryOutOfBounds)).
Proof. repeat split; by vm_compute. Qed.

(** C4, amended. For every index [i] below the count of a buffer that
    passes the gates on the header, both entries are read; if the 32-bit
    sum [offset + length] of one of them exceeds the size of the buffer,
    the loop stops there and decoding returns with the diagnostic
    [EntryOutOfBounds], which names no index, the catalog being left as
    it is; if both entries are within the buffer, the two strings are the
    slices [bytes[offset .. offset+length)], whatever bytes they hold. *)
Theorem entry_check_then_slice (content : string) (header : mo_header)
    (i : Z) :
  header_ok content header →
  0 ≤ i < number header →
  ∃ original translated,
    original_at content header i = Some original
    ∧ translated_at content header i = Some translated
    ∧ (entry_fits (content_size content) original = false
       ∨ entry_fits (content_size content) translated = false →
       ∀ todo m,
         entries_loop (S todo) content header i m
         = (Returned (Some EntryOutOfBounds), m))
    ∧ (entry_in_bounds (content_size content) original →
       entry_in_bounds (content_size content) translated →
       loop_body content header i
       = Stored (slice content original) (slice content translated)).
Proof.
  intros Hok Hi.
  destruct (entries_readable content header i Hok Hi) as [[o Eo] [t Et]].
  exists o, t. repeat split; try done.
  - intros Hfail todo m. apply entries_loop_stop.
    by apply (loop_body_premature content header i o t).
  - by apply loop_body_stored.
Qed.

Lemma entry_check_then_slice_witness :
  let content := Examples.two_entries in
  let header := {| magic := 0x950412de; version := 0; number := 2;
                   o_offset := 20; t_offset := 36 |} in
  header_ok content header
  ∧ ∃ original translated,
      original_at content header 1 = Some original
      ∧ translated_at content header 1 = Some translated
      ∧ (entry_fits (content_size content) original = false
         ∨ entry_fits (content_size content) translated = false →
         ∀ todo m,
           entries_loop (S todo) content header 1 m
           = (Returned (Some EntryOutOfBounds), m))
      ∧ (entry_in_bounds (content_size content) original →
         entry_in_bounds (content_size content) translated →
         loop_body content header 1
         = Stored (slice content original) (slice content translated)).
Proof.
  intros content header.
  assert (header_ok content header) as Hok by closed_header_ok.
  split; [done |].
  apply (entry_check_then_slice content header 1 Hok). by vm_compute.
Defined.

(** ** The gate on the tables *)

(** C2 does not hold of the code. The header alone, 20 bytes, announces
    [2^29] entries at offset 0: the exact sum [0 + 8 * 2^29] is [2^32],
    far beyond the buffer, but the 32-bit product is 0 and the gate lets
    the buffer through. No [TableOutOfBounds] is reported; the loop then
    takes the first bytes of the header for an entry and stops on it. *)
Theorem table_gate_wraps_around :
  let content := Examples.huge_count in
  let header := {| magic := 0x950412de; version := 0; number := 0x20000000;
                   o_offset := 0; t_offset := 0 |} in
  read_header (c_str content) = Some header
  ∧ content_size content = 20
  ∧ o_offset header + 8 * number header = 2 ^ 32
  ∧ tables_fit (content_size content) header = true
  ∧ decode_mo content = (Returned (Some EntryOutOfBounds), ∅).
Proof.
  intros content header.
  assert (read_header (c_str content) = Some header) as Hr by reflexivity.
  assert (tables_fit (content_size content) header = true) as Ht
    by reflexivity.
  split; [done |]. split; [reflexivity |]. split; [reflexivity |].
  split; [done |].
  unfold decode_mo.
  rewrite (process_gates_passed content header);
    [| by vm_compute | done | reflexivity | by left | done].
  replace (Z.to_nat (number header))
    with (S (Z.to_nat (number header - 1)))
    by (change (number header) with 536870912; lia).
  apply entries_loop_stop. reflexivity.
Qed.

(** With one entry present and [2^29 + 1] announced, the gate passes in
    the same way, the entry is stored and the next iteration reads past
    the end of the buffer. *)
Example table_gate_wraps_then_wild_read :
  let content := Examples.huge_count_one_entry in
  let header := {| magic := 0x950412de; version := 0; number := 0x20000001;
                   o_offset := 20; t_offset := 20 |} in
  read_header (c_str content) = Some header
  ∧ content_size content = 28
  ∧ content_size content < o_offset header + 8 * number header
  ∧ decode_mo content = (WildRead, {[ "" := "" ]}).
Proof.
  intros content header.
  assert (read_header (c_str content) = Some header) as Hr by reflexivity.
  split; [done |]. split; [reflexivity |]. split; [by vm_compute |].
  unfold decode_mo.
  rewrite (process_gates_passed content header);
    [| by vm_compute | done | reflexivity | by left | reflexivity].
  replace (Z.to_nat (number header))
    with (S (S (Z.to_nat (number header - 2))))
    by (change (number header) with 536870913; lia).
  rewrite (entries_loop_step content header _ 0 ∅ "" "") by reflexivity.
  apply entries_loop_stop. reflexivity.
Qed.

(** ** [main] *)

(** X19. With fewer than three elements in [argv], that is fewer than two
    arguments, [main] prints the usage on the standard error, nothing on
    the standard output, and exits with status 1, whatever the files. *)
Lemma main_too_few_arguments (fs : files) (argv : list string) :
  (length argv < 3)%nat →
  main fs argv
  = {| ended := Exit 1; cout := ""; cerr := print_usage (argv !! 0%nat) |}.
Proof.
  intros H. unfold main.
  by destruct (Nat.ltb_spec (length argv) 3); [| lia].
Qed.

(** X20. When the file named by the first argument does not open, [main]
    prints the usage and the line [Could not open file] with the name on
    the standard error, nothing on the standard output, and exits with
    status 1, whatever the action. *)
Lemma main_unopenable (fs : files) (prog filename action : string)
    (rest : list string) :
  fs filename = None →
  main fs (prog :: filename :: action :: rest)
  = {| ended := Exit 1; cout := "";
       cerr := print_usage (Some prog) +:+ "Could not open file '"
                 +:+ filename +:+ "'" +:+ nl |}.
Proof. intros H. unfold main. simpl. by rewrite H. Qed.

(** The action that is neither [keys] nor [pairs], on a file whose
    decoding returns. *)
Lemma main_unknown_action (fs : files) (prog filename action : string)
    (rest : list string) (contents : string) (d : option diagnostic)
    (m : gmap string string) :
  fs filename = Some contents →
  process_mo_contents contents ∅ = (Returned d, m) →
  action ≠ "keys" → action ≠ "pairs" →
  main fs (prog :: filename :: action :: rest)
  = {| ended := Exit 0;
       cout := read_line m +:+ nl;
       cerr := from_option message "" d +:+ print_usage (Some prog) |}.
Proof.
  intros Hf Hp Hk Hq. unfold main, mo_parser. simpl. rewrite Hf, Hp.
  destruct (String.eqb_spec action "keys"); [done |].
  by destruct (String.eqb_spec action "pairs").
Qed.

(** C9 does not hold of the code for every file that opens. The file has
    one entry of length 2 at offset [2^32 - 1]: the 32-bit sum is 1, the
    check of the loop passes, [substr] throws [std::out_of_range], nothing
    catches it: the process is terminated before [main] prints anything,
    it neither prints the line [Read ... entries:] nor exits with 0. *)
Theorem main_terminated_by_exception :
  let fs := Examples.one_file "bad.mo" Examples.wrapping_offset in
  let argv := ["mo_dump"; "bad.mo"; "list"] in
  fs "bad.mo" = Some Examples.wrapping_offset
  ∧ decode_mo Examples.wrapping_offset = (Threw, ∅)
  ∧ main fs argv = {| ended := Terminated; cout := ""; cerr := "" |}.
Proof. repeat split; by vm_compute. Qed.

(** The same invocation on a well-formed file. *)
Example main_unknown_action_example :
  main (Examples.one_file "ok.mo" Examples.two_entries)
    ["mo_dump"; "ok.mo"; "list"]
  = {| ended := Exit 0;
       cout := "Read 2 entries:" +:+ nl +:+ nl;
       cerr := print_usage (Some "mo_dump") |}.
Proof. by vm_compute. Qed.

(** * Further properties of the code *)

(** ** The gates, one by one *)

Lemma bad_magic_is_refused_witness :
  decode_mo Cases.wrong_magic = (Returned (Some BadMagic), ∅).
Proof.
  apply (bad_magic_is_refused Cases.wrong_magic
           {| magic := 0x12345678; version := 0; number := 0;
              o_offset := 20; t_offset := 20 |});
    [by vm_compute | reflexivity | by vm_compute].
Defined.

Lemma bad_version_is_refused_witness :
  decode_mo Cases.version_two = (Returned (Some (BadVersion 2)), ∅).
Proof.
  apply (bad_version_is_refused Cases.version_two
           {| magic := 0x950412de; version := 2; number := 0;
              o_offset := 20; t_offset := 20 |});
    [by vm_compute | reflexivity | reflexivity | by vm_compute].
Defined.

Lemma table_out_of_bounds_is_refused_witness :
  decode_mo Cases.tables_too_long = (Returned (Some TableOutOfBounds), ∅).
Proof.
  apply (table_out_of_bounds_is_refused Cases.tables_too_long
           {| magic := 0x950412de; version := 0; number := 3;
              o_offset := 20; t_offset := 20 |});
    [by vm_compute | reflexivity | reflexivity | by left
    | by vm_compute | by vm_compute | left; by vm_compute].
Defined.

(** ** Well-formed buffers *)

(** X4. A buffer that passes the gates on the header and all of whose
    entries are within the buffer decodes without any diagnostic, and the
    catalog is the one of the pairs of the tables, taken in table order,
    the first pair of a key winning. *)
Theorem well_formed_is_decoded (content : string) (header : mo_header) :
  header_ok content header →
  entries_in_bounds content header 0 (number header) →
  decode_mo content
  = (Returned None,
     list_to_map
       (table_pairs (Z.to_nat (number header)) content header 0)).
Proof.
  intros Hok Hin. unfold decode_mo.
  rewrite (process_header_ok content header) by done.
  destruct (read_header_range _ _ (ok_read _ _ Hok)) as (Rn & _).
  replace (Z.to_nat (number header))
    with (Z.to_nat (number header) + 0)%nat at 1 by lia.
  rewrite entries_loop_run.
  - simpl. by rewrite store_all_empty.
  - intros j Hj. apply entries_readable; [done | lia].
  - intros j e Hj. apply Hin. lia.
Qed.

Lemma well_formed_is_decoded_witness :
  let header := {| magic := 0x950412de; version := 0; number := 2;
                   o_offset := 20; t_offset := 36 |} in
  table_pairs 2 Examples.two_entries header 0
  = [("a", "b"); ("hello", "world")]
  ∧ decode_mo Examples.two_entries
    = (Returned None, list_to_map [("a", "b"); ("hello", "world")]).
Proof.
  intros header. split; [reflexivity |].
  apply (well_formed_is_decoded Examples.two_entries header).
  - closed_header_ok.
  - change (entries_in_bounds Examples.two_entries header 0 2).
    closed_entries_in_bounds.
Defined.

(** ** What the loop reads and when it returns *)

Section Safety.
Variables (content : string) (header : mo_header).

Lemma loop_body_no_wild_read (i : Z) :
  is_Some (original_at content header i) →
  is_Some (translated_at content header i) →
  loop_body content header i ≠ Stop WildRead.
Proof.
  unfold original_at, translated_at, loop_body. intros [o ->] [t ->].
  repeat (match goal with
          | |- context [if ?b then _ else _] => destruct b
          | |- context [match ?x with Some _ => _ | None => _ end] =>
              destruct x
          end; try done).
Qed.

Lemma entries_loop_no_wild_read (todo : nat) (i : Z)
    (m : gmap string string) :
  (∀ j, i ≤ j < i + Z.of_nat todo →
     is_Some (original_at content header j)
     ∧ is_Some (translated_at content header j)) →
  (entries_loop todo content header i m).1 ≠ WildRead.
Proof.
  revert i m. induction todo as [|todo IH]; intros i m Hread; simpl;
    [done |].
  destruct (loop_body content header i) as [k v | o] eqn:E.
  - apply IH. intros j Hj. apply Hread. lia.
  - simpl. intros ->.
    destruct (Hread i) as [Ho Ht]; [lia |].
    by apply (loop_body_no_wild_read i Ho Ht).
Qed.

Lemma loop_body_without_wrap (i : Z) (o t : mo_entry) :
  original_at content header i = Some o →
  translated_at content header i = Some t →
  e_offset o + e_length o < 2 ^ 32 →
  e_offset t + e_length t < 2 ^ 32 →
  loop_body content header i = Stop (Returned (Some EntryOutOfBounds))
  ∨ loop_body content header i
    = Stored (slice content o) (slice content t).
Proof.
  intros Eo Et Wo Wt.
  pose proof (read_entry_range _ _ _ _ Eo) as Ro.
  pose proof (read_entry_range _ _ _ _ Et) as Rt.
  destruct (entry_fits (content_size content) o) eqn:Fo.
  - destruct (entry_fits (content_size content) t) eqn:Ft.
    + right. apply loop_body_stored; try done.
      * apply entry_fits_no_wrap in Fo; [done | lia].
      * apply entry_fits_no_wrap in Ft; [done | lia].
    + left. apply (loop_body_premature content header i o t); auto.
  - left. apply (loop_body_premature content header i o t); auto.
Qed.

Lemma loop_body_no_throw (i : Z) :
  (∀ e, original_at content header i = Some e
        ∨ translated_at content header i = Some e →
        e_offset e + e_length e < 2 ^ 32) →
  loop_body content header i ≠ Stop Threw.
Proof.
  intros H.
  destruct (original_at content header i) as [o|] eqn:Eo.
  - destruct (translated_at content header i) as [t|] eqn:Et.
    + destruct (loop_body_without_wrap i o t Eo Et) as [-> | ->];
        auto; done.
    + unfold loop_body. unfold original_at in Eo. unfold translated_at in Et.
      rewrite Eo, Et. by destruct (negb (entry_fits _ o)).
  - unfold loop_body. unfold original_at in Eo. by rewrite Eo.
Qed.

Lemma entries_loop_no_throw (todo : nat) (i : Z) (m : gmap string string) :
  (∀ j e, i ≤ j < i + Z.of_nat todo →
     original_at content header j = Some e
     ∨ translated_at content header j = Some e →
     e_offset e + e_length e < 2 ^ 32) →
  (entries_loop todo content header i m).1 ≠ Threw.
Proof.
  revert i m. induction todo as [|todo IH]; intros i m H; simpl; [done |].
  destruct (loop_body content header i) as [k v | o] eqn:E.
  - apply IH. intros j e Hj. apply H. lia.
  - simpl. intros ->. revert E. apply loop_body_no_throw.
    intros e. apply H. lia.
Qed.

(** What an iteration that stores has checked and taken. *)
Lemma loop_body_stored_inv (i : Z) (k v : string) :
  loop_body content header i = Stored k v →
  ∃ o t, original_at content header i = Some o
         ∧ translated_at content header i = Some t
         ∧ substr content (e_offset o) (e_length o) = Some k
         ∧ substr content (e_offset t) (e_length t) = Some v.
Proof.
  unfold original_at, translated_at, loop_body. intros H.
  destruct (read_entry _ (o_offset header) i) as [o|]; [| done].
  destruct (negb (entry_fits _ o)); [done |].
  destruct (read_entry _ (t_offset header) i) as [t|]; [| done].
  destruct (negb (entry_fits _ t)); [done |].
  destruct (substr content (e_offset o) _) as [k'|] eqn:Ek; [| done].
  destruct (substr content (e_offset t) _) as [v'|] eqn:Ev; [| done].
  injection H as <- <-. exists o, t. by repeat split.
Qed.

(** A loop that ends without diagnostic has stored every entry. *)
Lemma entries_loop_complete (todo : nat) (i : Z)
    (m m' : gmap string string) :
  entries_loop todo content header i m = (Returned None, m') →
  ∀ j, i ≤ j < i + Z.of_nat todo →
    ∃ k v, loop_body content header j = Stored k v ∧ is_Some (m' !! k).
Proof.
  revert i m. induction todo as [|todo IH]; intros i m H j Hj; [lia |].
  simpl in H.
  destruct (loop_body content header i) as [k v | o] eqn:E.
  - destruct (decide (j = i)) as [-> |].
    + exists k, v. split; [done |].
      assert (is_Some (store_message k v m !! k)) as [x Hx].
      { unfold store_message. destruct (m !! k) eqn:Ek.
        - rewrite Ek. by eexists.
        - rewrite lookup_insert_eq. by eexists. }
      exists x.
      pose proof (entries_loop_keeps content header todo (i + 1) _ k x Hx)
        as Hk.
      by rewrite H in Hk.
    + apply (IH (i + 1) _ H). lia.
  - injection H as -> <-. apply loop_body_diagnostic in E. done.
Qed.

(** Whatever the loop leaves in the map was there or was stored by one of
    its iterations. *)
Lemma entries_loop_provenance (todo : nat) (i : Z) (m : gmap string string)
    (k v : string) :
  (entries_loop todo content header i m).2 !! k = Some v →
  m !! k = Some v
  ∨ ∃ j, i ≤ j < i + Z.of_nat todo ∧ loop_body content header j = Stored k v.
Proof.
  revert i m. induction todo as [|todo IH]; intros i m; simpl; [auto |].
  destruct (loop_body content header i) as [k' v' | o] eqn:E; simpl;
    [| auto].
  intros [H | (j & Hj & Ej)]%IH.
  - unfold store_message in H. destruct (m !! k') eqn:Ek; [auto |].
    destruct (decide (k' = k)) as [-> |].
    + rewrite lookup_insert_eq in H. injection H as ->.
      right. exists i. split; [lia | done].
    + rewrite lookup_insert_ne in H by done. auto.
  - right. exists j. split; [lia | done].
Qed.

End Safety.

Lemma entries_readable_in_tables (content : string) (header : mo_header)
    (j : Z) :
  read_header (c_str content) = Some header →
  o_offset header + 8 * number header ≤ content_size content →
  t_offset header + 8 * number header ≤ content_size content →
  0 ≤ j < number header →
  is_Some (original_at content header j)
  ∧ is_Some (translated_at content header j).
Proof.
  intros Hr Ho Ht Hj.
  destruct (read_header_range _ _ Hr) as (Rn & Ro & Rt).
  split; apply read_entry_is_Some; lia.
Qed.

(** The shape of [process_mo_contents]: either a gate on the header
    returns with its diagnostic and the map as it was, or the loop runs on
    a header that passed the gates of the code. *)
Lemma process_cases (content : string) (m : gmap string string) :
  (∃ d, header_gate d = true
        ∧ process_mo_contents content m = (Returned (Some d), m))
  ∨ (∃ header,
       read_header (c_str content) = Some header
       ∧ tables_fit (content_size content) header = true
       ∧ process_mo_contents content m
         = entries_loop (Z.to_nat (number header)) content header 0 m).
Proof.
  unfold process_mo_contents.
  destruct (Z.ltb_spec (content_size content) sizeof_mo_header).
  { left. eexists. split; [| reflexivity]. reflexivity. }
  destruct (read_header_is_Some content) as [header Hr]; [done |].
  rewrite Hr.
  destruct (negb (magic header =? 2500072158)).
  { left. eexists. split; [| reflexivity]. reflexivity. }
  destruct (negb (version header =? 0) && negb (version header =? 1)).
  { left. eexists. split; [| reflexivity]. reflexivity. }
  destruct (tables_fit (content_size content) header) eqn:Ht; simpl.
  - right. by exists header.
  - left. eexists. split; [| reflexivity]. reflexivity.
Qed.

(** Where the pairs of the catalog come from. *)
Lemma catalog_provenance (content : string) (k v : string) :
  (decode_mo content).2 !! k = Some v →
  ∃ header i,
    read_header (c_str content) = Some header
    ∧ 0 ≤ i < number header
    ∧ loop_body content header i = Stored k v.
Proof.
  unfold decode_mo.
  destruct (process_cases content ∅) as [(d & _ & ->) | (h & Hr & _ & ->)].
  - simpl. by rewrite lookup_empty.
  - intros [H | (j & Hj & Ej)]%entries_loop_provenance.
    + by rewrite lookup_empty in H.
    + exists h, j. split; [done |]. split; [lia | done].
Qed.

Lemma substr_part_of (content : string) (pos len : Z) (s : string) :
  0 ≤ pos → substr content pos len = Some s → part_of s content.
Proof.
  unfold substr, content_size. intros Hpos.
  destruct (Z.ltb_spec (Z.of_nat (String.length content)) pos); [done |].
  intros [= <-]. eexists _, _. split; [reflexivity | lia].
Qed.

(** ** Memory safety of the decoder *)

(** X5. When the two 32-bit sums [offset + 8 * number] of the header do
    not wrap around, decoding never reads outside the buffer, whatever the
    buffer holds: the gate on the tables then protects every read of
    the loop. *)
Theorem no_wild_read_without_wrap (content : string) (header : mo_header) :
  read_header (c_str content) = Some header →
  o_offset header + 8 * number header < 2 ^ 32 →
  t_offset header + 8 * number header < 2 ^ 32 →
  (decode_mo content).1 ≠ WildRead.
Proof.
  intros Hr Wo Wt. unfold decode_mo.
  destruct (process_cases content ∅) as [(d & _ & ->) | (h & Hr' & Ht & ->)];
    [done |].
  assert (h = header) as -> by congruence.
  destruct (read_header_range _ _ Hr) as (Rn & Ro & Rt).
  apply tables_fit_no_wrap in Ht as [Bo Bt]; [| lia ..].
  apply entries_loop_no_wild_read. intros j Hj.
  apply entries_readable_in_tables; try done. lia.
Qed.

Lemma no_wild_read_without_wrap_witness :
  (decode_mo Examples.wrapping_offset).1 = Threw
  ∧ (decode_mo Examples.wrapping_offset).1 ≠ WildRead.
Proof.
  split; [reflexivity |].
  apply (no_wild_read_without_wrap Examples.wrapping_offset
           {| magic := 0x950412de; version := 0; number := 1;
              o_offset := 20; t_offset := 20 |});
    [reflexivity | by vm_compute | by vm_compute].
Defined.

(** X6. When no entry below the count has a sum [offset + length] that
    wraps around in 32 bits, [substr] never throws: no exception leaves
    the decoder, whatever the buffer holds. *)
Theorem no_exception_without_wrap (content : string) :
  (∀ header, read_header (c_str content) = Some header →
     entries_no_wrap content header) →
  (decode_mo content).1 ≠ Threw.
Proof.
  intros H. unfold decode_mo.
  destruct (process_cases content ∅) as [(d & _ & ->) | (h & Hr & _ & ->)];
    [done |].
  apply entries_loop_no_throw. intros j e Hj. apply (H h Hr). lia.
Qed.

Lemma no_exception_without_wrap_witness :
  (decode_mo Examples.second_entry_too_long).1
  = Returned (Some EntryOutOfBounds)
  ∧ (decode_mo Examples.second_entry_too_long).1 ≠ Threw.
Proof.
  split; [reflexivity |].
  apply (no_exception_without_wrap Examples.second_entry_too_long).
  intros header [= <-].
  change (∀ i e, 0 ≤ i < 2 →
            original_at Examples.second_entry_too_long
              {| magic := 0x950412de; version := 0; number := 2;
                 o_offset := 20; t_offset := 36 |} i = Some e
            ∨ translated_at Examples.second_entry_too_long
                {| magic := 0x950412de; version := 0; number := 2;
                   o_offset := 20; t_offset := 36 |} i = Some e →
            e_offset e + e_length e < 2 ^ 32).
  closed_entries_in_bounds.
Defined.

(** ** What a catalog holds *)

(** X7. When decoding ends without diagnostic, every index below the
    count was read, its two strings were taken from the buffer and its
    original string is a key of the catalog. *)
Theorem success_stores_every_entry (content : string) (header : mo_header)
    (m : gmap string string) :
  decode_mo content = (Returned None, m) →
  read_header (c_str content) = Some header →
  ∀ i, 0 ≤ i < number header →
    ∃ o t k v,
      original_at content header i = Some o
      ∧ translated_at content header i = Some t
      ∧ substr content (e_offset o) (e_length o) = Some k
      ∧ substr content (e_offset t) (e_length t) = Some v
      ∧ is_Some (m !! k).
Proof.
  unfold decode_mo. intros Hd Hr i Hi.
  destruct (process_cases content ∅) as [(d & _ & E) | (h & Hr' & _ & E)];
    rewrite E in Hd; [done |].
  assert (h = header) as -> by congruence.
  destruct (entries_loop_complete content header _ _ _ _ Hd i)
    as (k & v & Ek & Hk); [lia |].
  destruct (loop_body_stored_inv content header i k v Ek)
    as (o & t & Eo & Et & Sk & Sv).
  by exists o, t, k, v.
Qed.

Lemma success_stores_every_entry_witness :
  let header := {| magic := 0x950412de; version := 0; number := 2;
                   o_offset := 20; t_offset := 36 |} in
  ∃ o t k v,
    original_at Examples.two_entries header 1 = Some o
    ∧ translated_at Examples.two_entries header 1 = Some t
    ∧ substr Examples.two_entries (e_offset o) (e_length o) = Some k
    ∧ substr Examples.two_entries (e_offset t) (e_length t) = Some v
    ∧ is_Some ((decode_mo Examples.two_entries).2 !! k).
Proof.
  intros header.
  apply (success_stores_every_entry Examples.two_entries header
           (decode_mo Examples.two_entries).2);
    [by vm_compute | reflexivity | by vm_compute].
Defined.

(** X8. Every pair of the catalog comes from the tables: there is an
    index below the count whose original entry yields the key and whose
    translated entry yields the value. *)
Theorem catalog_pairs_come_from_the_tables (content : string)
    (k v : string) :
  (decode_mo content).2 !! k = Some v →
  ∃ header i o t,
    read_header (c_str content) = Some header
    ∧ 0 ≤ i < number header
    ∧ original_at content header i = Some o
    ∧ translated_at content header i = Some t
    ∧ substr content (e_offset o) (e_length o) = Some k
    ∧ substr content (e_offset t) (e_length t) = Some v.
Proof.
  intros (header & i & Hr & Hi & Ei)%catalog_provenance.
  destruct (loop_body_stored_inv content header i k v Ei)
    as (o & t & Eo & Et & Sk & Sv).
  by exists header, i, o, t.
Qed.

Lemma catalog_pairs_come_from_the_tables_witness :
  ∃ header i o t,
    read_header (c_str Examples.duplicated) = Some header
    ∧ 0 ≤ i < number header
    ∧ original_at Examples.duplicated header i = Some o
    ∧ translated_at Examples.duplicated header i = Some t
    ∧ substr Examples.duplicated (e_offset o) (e_length o) = Some "dup"
    ∧ substr Examples.duplicated (e_offset t) (e_length t) = Some "first".
Proof.
  apply (catalog_pairs_come_from_the_tables Examples.duplicated).
  reflexivity.
Defined.

(** X9. The decoder invents no byte: every key and every translation of
    the catalog is a part of the buffer. *)
Theorem catalog_strings_are_parts_of_the_buffer (content : string)
    (k v : string) :
  (decode_mo content).2 !! k = Some v →
  part_of k content ∧ part_of v content.
Proof.
  intros (header & i & Hr & Hi & Ei)%catalog_provenance.
  destruct (loop_body_stored_inv content header i k v Ei)
    as (o & t & Eo & Et & Sk & Sv).
  apply read_entry_range in Eo, Et.
  split.
  - apply (substr_part_of content (e_offset o) (e_length o)); [lia | done].
  - apply (substr_part_of content (e_offset t) (e_length t)); [lia | done].
Qed.

Lemma catalog_strings_are_parts_of_the_buffer_witness :
  part_of "hello" Examples.two_entries ∧ part_of "world" Examples.two_entries.
Proof.
  apply (catalog_strings_are_parts_of_the_buffer Examples.two_entries).
  reflexivity.
Defined.

(** X10. Decoding into a parser never removes nor changes what its map
    already holds: the map before is included in the map after, however
    decoding ends. *)
Theorem process_keeps_the_map (content : string) (m : gmap string string) :
  m ⊆ (process_mo_contents content m).2.
Proof.
  apply map_subseteq_spec. intros k v Hk.
  destruct (process_cases content m) as [(d & _ & ->) | (h & _ & _ & ->)];
    [done |].
  by apply entries_loop_keeps.
Qed.

(** ** [store_message], used again and again *)

(** X11. Storing a key a second time changes nothing, whatever the second
    translation: the first one stays. *)
Theorem store_twice_keeps_first (k v1 v2 : string)
    (m : gmap string string) :
  store_message k v2 (store_message k v1 m) = store_message k v1 m.
Proof.
  unfold store_message at 2 3. destruct (m !! k) eqn:E.
  - unfold store_message. by rewrite E.
  - unfold store_message. by rewrite lookup_insert_eq.
Qed.

(** X12. Stores of two different keys can be swapped. *)
Theorem store_distinct_keys_commute (k1 v1 k2 v2 : string)
    (m : gmap string string) :
  k1 ≠ k2 →
  store_message k1 v1 (store_message k2 v2 m)
  = store_message k2 v2 (store_message k1 v1 m).
Proof.
  intros Hne. unfold store_message.
  destruct (m !! k1) eqn:E1; destruct (m !! k2) eqn:E2;
    rewrite ?E1, ?E2, ?lookup_insert_ne, ?E1, ?E2 by done; try done.
  by apply insert_insert_ne.
Qed.

Lemma store_distinct_keys_commute_witness :
  store_message "a" "1" (store_message "b" "2" ∅)
  = store_message "b" "2" (store_message "a" "1" ∅).
Proof. by apply (store_distinct_keys_commute "a" "1" "b" "2" ∅). Defined.

(** X13. After a list of pairs has been stored in order, a key maps to
    what the map held for it before or else to the translation of the
    first pair of the list that has this key. *)
Theorem store_all_first_match (l : list (string * string))
    (m : gmap string string) (k : string) :
  store_all l m !! k
  = match m !! k with
    | Some v => Some v
    | None => first_match k l
    end.
Proof.
  revert m. induction l as [|[k' v'] l IH]; intros m.
  - simpl. by destruct (m !! k).
  - change (store_all ((k', v') :: l) m)
      with (store_all l (store_message k' v' m)).
    rewrite IH. simpl. unfold store_message.
    destruct (m !! k') eqn:E'.
    + destruct (m !! k) eqn:E; [done |].
      destruct (decide (k' = k)) as [-> |]; [congruence | done].
    + destruct (decide (k' = k)) as [-> |].
      * by rewrite lookup_insert_eq, E'.
      * by rewrite lookup_insert_ne.
Qed.

(** ** Escaped text *)

Lemma list_ascii_of_string_app (a b : string) :
  list_ascii_of_string (a +:+ b)
  = (list_ascii_of_string a ++ list_ascii_of_string b)%list.
Proof.
  induction a as [|c a IH]; [done |].
  rewrite append_cons. simpl. by rewrite IH.
Qed.

Lemma length_list_ascii_of_string (s : string) :
  length (list_ascii_of_string s) = String.length s.
Proof. induction s as [|c s IH]; simpl; [done | by rewrite IH]. Qed.

(** The characters of the escaped text: the quote, the images, the
    quote. *)
Lemma quote_escape_string_chars (s : string) :
  list_ascii_of_string (quote_escape_string s)
  = (DQUOTE :: concat (map EscapeSpec.image (list_ascii_of_string s))
       ++ [DQUOTE])%list.
Proof.
  unfold quote_escape_string.
  rewrite escape_loop_images, !list_ascii_of_string_app.
  by rewrite list_ascii_of_string_of_list_ascii.
Qed.

Lemma image_cases (c : ascii) :
  (EscapeSpec.image c = [c]
   ∧ c ≠ LF ∧ c ≠ TAB ∧ c ≠ NUL ∧ c ≠ DQUOTE ∧ c ≠ BACKSLASH)
  ∨ (∃ x, EscapeSpec.image c = [BACKSLASH; x]
          ∧ unescape_char x = c
          ∧ x ≠ LF ∧ x ≠ TAB ∧ x ≠ NUL).
Proof.
  unfold EscapeSpec.image.
  destruct (decide (c = LF)) as [-> |]; [right; by eexists |].
  destruct (decide (c = TAB)) as [-> |]; [right; by eexists |].
  destruct (decide (c = NUL)) as [-> |]; [right; by eexists |].
  destruct (decide (c = DQUOTE)) as [-> |]; [right; by eexists |].
  destruct (decide (c = BACKSLASH)) as [-> |]; [right; by eexists |].
  by left.
Qed.

Lemma unescape_images (l : list ascii) :
  unescape (concat (map EscapeSpec.image l)) = l.
Proof.
  induction l as [|c l IH]; [done |]. simpl.
  destruct (image_cases c) as [(-> & _ & _ & _ & _ & Hb)
                              | (x & -> & Hx & _)].
  - simpl. destruct (Ascii.eqb_spec c BACKSLASH); [done |]. by rewrite IH.
  - simpl. by rewrite Hx, IH.
Qed.

(** X14. Escaping loses nothing: two strings with the same escaped text
    are the same string. *)
Theorem quote_escape_string_injective (s1 s2 : string) :
  quote_escape_string s1 = quote_escape_string s2 → s1 = s2.
Proof.
  intros H. apply (f_equal list_ascii_of_string) in H.
  rewrite !quote_escape_string_chars in H.
  injection H as H. apply app_inj_tail in H as [H _].
  apply (f_equal unescape) in H. rewrite !unescape_images in H.
  apply (f_equal string_of_list_ascii) in H.
  by rewrite !string_of_list_ascii_of_string in H.
Qed.

Lemma quote_escape_string_injective_witness :
  quote_escape_string (chr LF) = quote_escape_string (chr LF)
  ∧ chr LF = chr LF.
Proof.
  split; [reflexivity |].
  apply (quote_escape_string_injective (chr LF) (chr LF)). reflexivity.
Defined.

(** X15. The escaped text holds no newline, no tab and no NUL, whatever
    the string: a dumped entry stays on its line. *)
Theorem escaped_text_has_no_control_character (s : string) (c : ascii) :
  occurs c (quote_escape_string s) → c ≠ LF ∧ c ≠ TAB ∧ c ≠ NUL.
Proof.
  unfold occurs. rewrite quote_escape_string_chars.
  intros [<- | [H | [<- | []]]%in_app_or]; [done | | done].
  apply in_concat in H as (img & Himg & Hc).
  apply in_map_iff in Himg as (x & <- & _).
  destruct (image_cases x) as [(E & ? & ? & ? & _)
                              | (y & E & _ & ? & ? & ?)];
    rewrite E in Hc; simpl in Hc.
  - destruct Hc as [<- | []]. done.
  - destruct Hc as [<- | [<- | []]]; done.
Qed.

Lemma escaped_text_has_no_control_character_witness :
  occurs BACKSLASH (quote_escape_string (chr LF))
  ∧ BACKSLASH ≠ LF ∧ BACKSLASH ≠ TAB ∧ BACKSLASH ≠ NUL.
Proof.
  assert (occurs BACKSLASH (quote_escape_string (chr LF))) as H
    by (right; by left).
  split; [done |].
  apply (escaped_text_has_no_control_character (chr LF) BACKSLASH H).
Defined.

(** X16. The escaped text has the two quotes and, for each byte of the
    string, one or two characters. *)
Theorem quote_escape_string_length (s : string) :
  (String.length s + 2 ≤ String.length (quote_escape_string s)
   ≤ 2 * String.length s + 2)%nat.
Proof.
  rewrite <- (length_list_ascii_of_string (quote_escape_string s)).
  rewrite quote_escape_string_chars. simpl. rewrite length_app. simpl.
  rewrite <- (length_list_ascii_of_string s).
  induction (list_ascii_of_string s) as [|c l IH]; simpl; [lia |].
  rewrite length_app.
  destruct (image_cases c) as [(-> & _) | (x & -> & _)]; simpl; lia.
Qed.

(** ** The dump *)

Lemma count_char_app (c : ascii) (a b : string) :
  count_char c (a +:+ b) = (count_char c a + count_char c b)%nat.
Proof.
  induction a as [|x a IH]; [done |].
  rewrite append_cons. simpl. rewrite IH. lia.
Qed.

Lemma count_char_absent (c : ascii) (s : string) :
  ¬ occurs c s → count_char c s = O.
Proof.
  unfold occurs. induction s as [|x s IH]; simpl; [done |].
  intros H. destruct (Ascii.eqb_spec x c) as [-> |].
  - destruct H. by left.
  - rewrite IH; [done |]. intros ?. apply H. by right.
Qed.

Lemma escaped_text_has_no_newline (s : string) :
  count_char LF (quote_escape_string s) = O.
Proof.
  apply count_char_absent. unfold occurs.
  rewrite quote_escape_string_chars.
  intros [E | [H | [E | []]]%in_app_or]; [done | | done].
  apply in_concat in H as (img & Himg & Hc).
  apply in_map_iff in Himg as (x & <- & _).
  destruct (image_cases x) as [(E & ? & _) | (y & E & _ & ? & _)];
    rewrite E in Hc; simpl in Hc.
  - destruct Hc as [E' | []]. congruence.
  - destruct Hc as [E' | [E' | []]]; [done | congruence].
Qed.

(** X17. Both dumps print one line for each entry of the catalog, no
    more and no less, whatever bytes the strings hold. *)
Theorem dump_prints_one_line_per_entry (m : gmap string string) :
  count_char LF (dump_keys m) = size m
  ∧ count_char LF (dump_pairs m) = size m.
Proof.
  unfold dump_keys, dump_pairs. rewrite <- (length_map_to_list m).
  split; induction (map_to_list m) as [|[k v] l IH]; simpl; try done;
    rewrite !count_char_app, !escaped_text_has_no_newline, IH; done.
Qed.



Lemma main_too_few_arguments_witness :
  main (Examples.one_file "ok.mo" Examples.two_entries) ["mo_dump"; "ok.mo"]
  = {| ended := Exit 1; cout := "";
       cerr := print_usage (Some "mo_dump") |}.
Proof.
  apply (main_too_few_arguments
           (Examples.one_file "ok.mo" Examples.two_entries)
           ["mo_dump"; "ok.mo"]).
  simpl. lia.
Defined.

Lemma main_unopenable_witness :
  main (Examples.one_file "ok.mo" Examples.two_entries)
    ["mo_dump"; "no.mo"; "keys"]
  = {| ended := Exit 1; cout := "";
       cerr := print_usage (Some "mo_dump") +:+ "Could not open file '"
                 +:+ "no.mo" +:+ "'" +:+ nl |}.
Proof.
  apply (main_unopenable (Examples.one_file "ok.mo" Examples.two_entries)
           "mo_dump" "no.mo" "keys" []).
  reflexivity.
Defined.

(** ** Reading back what [Writer.write] lays out *)

Import Writer.

Lemma len_nonneg (s : string) : 0 ≤ len s.
Proof. unfold len. lia. Qed.

Lemma len_append (a b : string) : len (a +:+ b) = len a + len b.
Proof. unfold len. rewrite length_append. lia. Qed.

Lemma get_append_right (pre s : string) (k : nat) :
  String.get (String.length pre + k) (pre +:+ s) = String.get k s.
Proof.
  induction pre as [|c pre IH]; [done |].
  rewrite append_cons. simpl. apply IH.
Qed.

Lemma byte_at_append (pre s : string) (a : Z) :
  0 ≤ a → byte_at (pre +:+ s) (len pre + a) = byte_at s a.
Proof.
  intros Ha. unfold byte_at, len.
  destruct (Z.ltb_spec (Z.of_nat (String.length pre) + a) 0); [lia |].
  destruct (Z.ltb_spec a 0); [lia |].
  replace (Z.to_nat (Z.of_nat (String.length pre) + a))
    with (String.length pre + Z.to_nat a)%nat by lia.
  by rewrite get_append_right.
Qed.

Lemma read_u32_append (pre s : string) (a : Z) :
  0 ≤ a → read_u32 (pre +:+ s) (len pre + a) = read_u32 s a.
Proof.
  intros Ha. unfold read_u32.
  rewrite <- !Z.add_assoc.
  by rewrite !byte_at_append by lia.
Qed.

Lemma le_bytes (x : Z) :
  0 ≤ x < 2 ^ 32 →
  x mod 256 + 256 * ((x / 256) mod 256) + 65536 * ((x / 65536) mod 256)
    + 16777216 * ((x / 16777216) mod 256) = x.
Proof. intros H. Z.div_mod_to_equations. lia. Qed.

Lemma byte_of_ascii_of_byte (y : Z) :
  0 ≤ y < 256 → Z.of_N (N_of_ascii (ascii_of_N (Z.to_N y))) = y.
Proof.
  intros H. rewrite N_ascii_embedding by lia. lia.
Qed.

Lemma length_le32 (x : Z) : len (Build.le32 x) = 4.
Proof. reflexivity. Qed.

Lemma read_u32_le32 (x : Z) (post : string) :
  0 ≤ x < 2 ^ 32 → read_u32 (Build.le32 x +:+ post) 0 = Some x.
Proof.
  intros H. unfold Build.le32. simpl map. simpl string_of_list_ascii.
  rewrite !append_cons. unfold read_u32, byte_at. simpl.
  rewrite !byte_of_ascii_of_byte by (apply Z.mod_pos_bound; lia).
  f_equal. rewrite Z.div_1_r. by apply le_bytes.
Qed.

Lemma read_u32_skip (x : Z) (s : string) (a : Z) :
  0 ≤ a → read_u32 (Build.le32 x +:+ s) (4 + a) = read_u32 s a.
Proof. intros Ha. by rewrite <- (read_u32_append (Build.le32 x) s a). Qed.

Lemma read_header_header (v n o t : Z) (post : string) :
  0 ≤ v < 2 ^ 32 → 0 ≤ n < 2 ^ 32 → 0 ≤ o < 2 ^ 32 → 0 ≤ t < 2 ^ 32 →
  read_header (Build.header v n o t +:+ post)
  = Some {| magic := 0x950412de; version := v; number := n;
            o_offset := o; t_offset := t |}.
Proof.
  intros Hv Hn Ho Ht. unfold Build.header.
  rewrite !append_assoc.
  set (mem := Build.le32 2500072158 +:+ _).
  assert (read_u32 mem 0 = Some 2500072158) as E0
    by (apply read_u32_le32; lia).
  assert (read_u32 mem (4 + 0) = Some v) as E4
    by (unfold mem; rewrite read_u32_skip, read_u32_le32; done || lia).
  assert (read_u32 mem (4 + (4 + 0)) = Some n) as E8
    by (unfold mem; rewrite !read_u32_skip, read_u32_le32; done || lia).
  assert (read_u32 mem (4 + (4 + (4 + 0))) = Some o) as E12
    by (unfold mem; rewrite !read_u32_skip, read_u32_le32; done || lia).
  assert (read_u32 mem (4 + (4 + (4 + (4 + 0)))) = Some t) as E16
    by (unfold mem; rewrite !read_u32_skip, read_u32_le32; done || lia).
  unfold read_header.
  change 4 with (4 + 0) at 1.
  change 8 with (4 + (4 + 0)).
  change 12 with (4 + (4 + (4 + 0))).
  change 16 with (4 + (4 + (4 + (4 + 0)))).
  by rewrite E0, E4, E8, E12, E16.
Qed.

Lemma len_entry (l o : Z) : len (Build.entry l o) = 8.
Proof. reflexivity. Qed.

Lemma len_header (v n o t : Z) : len (Build.header v n o t) = 20.
Proof. reflexivity. Qed.

Lemma read_entry_entry (pre post : string) (l o : Z) :
  0 ≤ l < 2 ^ 32 → 0 ≤ o < 2 ^ 32 →
  read_entry (pre +:+ Build.entry l o +:+ post) (len pre) 0
  = Some {| e_length := l; e_offset := o |}.
Proof.
  intros Hl Ho. unfold read_entry, Build.entry, sizeof_mo_entry.
  rewrite Z.mul_0_r, append_assoc.
  rewrite read_u32_append, read_u32_le32 by lia. simpl.
  rewrite <- Z.add_assoc, read_u32_append by lia.
  change (0 + 4) with (4 + 0).
  by rewrite read_u32_skip, read_u32_le32 by lia.
Qed.

Lemma read_entry_shift (mem : string) (t i : Z) :
  read_entry mem (t + 8) i = read_entry mem t (i + 1).
Proof.
  unfold read_entry, sizeof_mo_entry.
  by replace (t + 8 * (i + 1)) with (t + 8 + 8 * i) by lia.
Qed.

Lemma len_table (es : list mo_entry) :
  len (table es) = 8 * Z.of_nat (length es).
Proof.
  induction es as [|e es IH]; [done |].
  change (table (e :: es))
    with (Build.entry (e_length e) (e_offset e) +:+ table es).
  rewrite len_append, len_entry, IH. simpl length. lia.
Qed.

(** Entry [i] of a table that stands between [pre] and [post]. *)
Lemma read_entry_table (es : list mo_entry) (pre post : string) (i : nat)
    (e : mo_entry) :
  (∀ e', e' ∈ es → 0 ≤ e_length e' < 2 ^ 32 ∧ 0 ≤ e_offset e' < 2 ^ 32) →
  es !! i = Some e →
  read_entry (pre +:+ table es +:+ post) (len pre) (Z.of_nat i) = Some e.
Proof.
  revert pre i. induction es as [|e0 es IH]; intros pre i Hr Hi; [done |].
  change (table (e0 :: es))
    with (Build.entry (e_length e0) (e_offset e0) +:+ table es).
  rewrite append_assoc.
  destruct i as [|i].
  - injection Hi as ->.
    destruct (Hr e) as [Hl Ho]; [by left |].
    rewrite read_entry_entry by done. by destruct e.
  - simpl in Hi.
    rewrite Nat2Z.inj_succ, <- Z.add_1_r, <- read_entry_shift.
    rewrite <- append_assoc.
    replace (len pre + 8)
      with (len (pre +:+ Build.entry (e_length e0) (e_offset e0)))
      by (rewrite len_append, len_entry; lia).
    apply IH; [| done].
    intros e' He'. apply Hr. by right.
Qed.

Lemma substring_append (pre s rest : string) :
  String.substring (String.length pre) (String.length s)
    (pre +:+ s +:+ rest) = s.
Proof.
  induction pre as [|c pre IH].
  - rewrite append_nil_l. simpl String.length.
    induction s as [|x s IHs].
    + rewrite append_nil_l. apply substring_nil.
    + rewrite append_cons. simpl. by rewrite IHs.
  - rewrite append_cons. simpl. apply IH.
Qed.

Lemma slice_append (pre s rest : string) (e : mo_entry) :
  e_offset e = len pre → e_length e = len s →
  slice (pre +:+ s +:+ rest) e = s.
Proof.
  intros Ho Hl. unfold slice, len in *. rewrite Ho, Hl, !Nat2Z.id.
  apply substring_append.
Qed.

Lemma length_layout (l : list (string * string)) (pos : Z) :
  length (layout l pos) = length l.
Proof.
  revert pos. induction l as [|[k v] l IH]; intros pos; simpl;
    [done | by rewrite IH].
Qed.

(** Entry [i] of the layout: where it points and what lies there. *)
Lemma layout_lookup (l : list (string * string)) (pos : Z) (pre : string)
    (i : nat) (eo et : mo_entry) :
  len pre = pos →
  layout l pos !! i = Some (eo, et) →
  ∃ k v,
    l !! i = Some (k, v)
    ∧ e_length eo = len k ∧ e_length et = len v
    ∧ pos ≤ e_offset eo
    ∧ e_offset et = e_offset eo + len k
    ∧ e_offset et + len v ≤ pos + len (strings l)
    ∧ slice (pre +:+ strings l) eo = k
    ∧ slice (pre +:+ strings l) et = v.
Proof.
  revert pos pre i. induction l as [|[k0 v0] l IH]; intros pos pre i Hpre Hi;
    [done |].
  change (strings ((k0, v0) :: l)) with (k0 +:+ v0 +:+ strings l).
  pose proof (len_nonneg k0). pose proof (len_nonneg v0).
  pose proof (len_nonneg (strings l)).
  destruct i as [|i]; simpl in Hi.
  - injection Hi as <- <-. exists k0, v0. simpl.
    rewrite !len_append.
    repeat split; try done; try lia.
    + by apply slice_append.
    + rewrite <- append_assoc. apply slice_append; simpl; [| done].
      rewrite len_append. lia.
  - destruct (IH (pos + len k0 + len v0) (pre +:+ k0 +:+ v0) i)
      as (k & v & Hl & Ho & Ht & Hpos & Het & Hend & Sk & Sv); [| done |].
    { rewrite !len_append. lia. }
    exists k, v. rewrite !len_append.
    rewrite !append_assoc in Sk, Sv.
    repeat split; try done; lia.
Qed.

Section RoundTrip.
Variable l : list (string * string).
Hypothesis Hsize : content_size (write l) < 2 ^ 32.

Let n : Z := Z.of_nat (length l).
Let es : list (mo_entry * mo_entry) := layout l (20 + 16 * n).

Lemma write_eq :
  write l
  = Build.header 0 n 20 (20 + 8 * n)
      +:+ table (es.*1) +:+ table (es.*2) +:+ strings l.
Proof. reflexivity. Qed.

Lemma size_write : content_size (write l) = 20 + 16 * n + len (strings l).
Proof.
  rewrite write_eq.
  change (content_size ?s) with (len s).
  rewrite !len_append, len_header, !len_table, !length_fmap.
  unfold es. rewrite length_layout. fold n. lia.
Qed.

Lemma write_header_ok : header_ok (write l) (header_of l).
Proof.
  pose proof size_write as Hs. pose proof (len_nonneg (strings l)).
  assert (0 ≤ n) by (unfold n; lia).
  split; unfold header_of, sizeof_mo_header; fold n; simpl; try lia.
  unfold c_str. rewrite write_eq, append_assoc.
  apply read_header_header; lia.
Qed.

Lemma write_entries (i : nat) (k v : string) :
  l !! i = Some (k, v) →
  ∃ eo et,
    original_at (write l) (header_of l) (Z.of_nat i) = Some eo
    ∧ translated_at (write l) (header_of l) (Z.of_nat i) = Some et
    ∧ slice (write l) eo = k ∧ slice (write l) et = v
    ∧ entry_in_bounds (content_size (write l)) eo
    ∧ entry_in_bounds (content_size (write l)) et.
Proof.
  intros Hi.
  pose proof size_write as Hs. pose proof (len_nonneg (strings l)).
  assert (0 ≤ n) by (unfold n; lia).
  set (pre := Build.header 0 n 20 (20 + 8 * n)
                +:+ table (es.*1) +:+ table (es.*2)).
  assert (len pre = 20 + 16 * n) as Hpre.
  { unfold pre. rewrite !len_append, len_header, !len_table, !length_fmap.
    unfold es. rewrite length_layout. fold n. lia. }
  assert (write l = pre +:+ strings l) as Hw.
  { rewrite write_eq. unfold pre. by rewrite !append_assoc. }
  assert (∀ j eo et, es !! j = Some (eo, et) →
            (0 ≤ e_length eo < 2 ^ 32 ∧ 0 ≤ e_offset eo < 2 ^ 32)
            ∧ (0 ≤ e_length et < 2 ^ 32 ∧ 0 ≤ e_offset et < 2 ^ 32))
    as Hrange.
  { intros j eo et Hj.
    destruct (layout_lookup l _ pre j eo et Hpre Hj)
      as (k' & v' & _ & Ho & Ht & Hpos & Het & Hend & _).
    pose proof (len_nonneg k'). pose proof (len_nonneg v'). lia. }
  destruct (lookup_lt_is_Some_2 es i) as [[eo et] Hes].
  { unfold es. rewrite length_layout. by apply lookup_lt_Some in Hi. }
  destruct (layout_lookup l _ pre i eo et Hpre Hes)
    as (k' & v' & Hl & Ho & Ht & Hpos & Het & Hend & Sk & Sv).
  assert (k' = k ∧ v' = v) as [-> ->] by (split; congruence).
  pose proof (len_nonneg k). pose proof (len_nonneg v).
  exists eo, et. rewrite Hw at 3 4. rewrite Sk, Sv.
  unfold original_at, translated_at, entry_in_bounds, c_str, header_of.
  fold n. simpl.
  repeat split; try done; try lia.
  - rewrite write_eq, !append_assoc.
    change 20 with (len (Build.header 0 n 20 (20 + 8 * n))) at 1.
    apply read_entry_table.
    + intros e' ([eo' et'] & -> & He')%list_elem_of_fmap.
      apply list_elem_of_lookup in He' as [j Hj].
      apply (Hrange j eo' et' Hj).
    + by rewrite list_lookup_fmap, Hes.
  - rewrite write_eq, !append_assoc.
    rewrite <- (append_assoc (Build.header 0 n 20 (20 + 8 * n))).
    replace (20 + 8 * n)
      with (len (Build.header 0 n 20 (20 + 8 * n) +:+ table (es.*1))) at 2.
    2: { rewrite len_append, len_header, len_table, length_fmap.
         unfold es. rewrite length_layout. fold n. lia. }
    apply read_entry_table.
    + intros e' ([eo' et'] & -> & He')%list_elem_of_fmap.
      apply list_elem_of_lookup in He' as [j Hj].
      apply (Hrange j eo' et' Hj).
    + by rewrite list_lookup_fmap, Hes.
Qed.

End RoundTrip.

Lemma table_pairs_ext (content : string) (header : mo_header)
    (l : list (string * string)) (i : Z) :
  (∀ j p, l !! j = Some p →
     entry_pair content header (i + Z.of_nat j) = Some p) →
  table_pairs (length l) content header i = l.
Proof.
  revert i. induction l as [|p l IH]; intros i H; [done |].
  pose proof (H O p eq_refl) as H0. simpl in H0. rewrite Z.add_0_r in H0.
  simpl. rewrite H0. f_equal.
  apply IH. intros j q Hj.
  replace (i + 1 + Z.of_nat j) with (i + Z.of_nat (S j)) by lia.
  by apply H.
Qed.

(** The loop on a buffer whose entries are all within it, from any map. *)
Lemma process_well_formed (content : string) (header : mo_header)
    (m : gmap string string) :
  header_ok content header →
  entries_in_bounds content header 0 (number header) →
  process_mo_contents content m
  = (Returned None,
     store_all (table_pairs (Z.to_nat (number header)) content header 0) m).
Proof.
  intros Hok Hin.
  rewrite (process_header_ok content header) by done.
  destruct (read_header_range _ _ (ok_read _ _ Hok)) as (Rn & _).
  replace (Z.to_nat (number header))
    with (Z.to_nat (number header) + 0)%nat at 1 by lia.
  rewrite entries_loop_run; [done | |].
  - intros j Hj. apply entries_readable; [done | lia].
  - intros j e Hj. apply Hin. lia.
Qed.

(** X21. Every catalog can be read back: for a list of pairs whose buffer
    (the header, the table of the original strings, the table of the
    translated strings, then the strings) is shorter than [2^32] bytes,
    decoding the buffer ends without diagnostic and yields the catalog of
    the list, the first pair of a key winning. *)
Theorem written_catalog_is_read_back (l : list (string * string)) :
  content_size (write l) < 2 ^ 32 →
  decode_mo (write l) = (Returned None, list_to_map l).
Proof.
  intros Hsize. unfold decode_mo.
  assert (number (header_of l) = Z.of_nat (length l)) as Hn by done.
  assert (∀ j p, l !! j = Some p →
            entry_pair (write l) (header_of l) (0 + Z.of_nat j) = Some p)
    as Hpairs.
  { intros j [k v] Hj.
    destruct (write_entries l Hsize j k v Hj)
      as (eo & et & Eo & Et & Sk & Sv & _).
    unfold entry_pair. rewrite Z.add_0_l, Eo, Et. simpl. by rewrite Sk, Sv. }
  rewrite (process_well_formed (write l) (header_of l)).
  - rewrite Hn, Nat2Z.id, table_pairs_ext by done.
    by rewrite store_all_empty.
  - by apply write_header_ok.
  - rewrite Hn. intros j e Hj He.
    destruct (lookup_lt_is_Some_2 l (Z.to_nat j)) as [[k v] Hl]; [lia |].
    destruct (write_entries l Hsize (Z.to_nat j) k v Hl)
      as (eo & et & Eo & Et & _ & _ & Bo & Bt).
    rewrite Z2Nat.id in Eo, Et by lia.
    destruct He as [He | He]; congruence.
Qed.

Lemma written_catalog_is_read_back_witness :
  decode_mo (write [("a", "b"); ("hello", "world"); ("a", "c")])
  = (Returned None,
     list_to_map [("a", "b"); ("hello", "world"); ("a", "c")]).
Proof.
  apply (written_catalog_is_read_back
           [("a", "b"); ("hello", "world"); ("a", "c")]).
  by vm_compute.
Defined.

(** ** [main] on files without wrap-around *)

Lemma process_returns (content : string) :
  (∀ header, read_header (c_str content) = Some header →
     o_offset header + 8 * number header < 2 ^ 32
     ∧ t_offset header + 8 * number header < 2 ^ 32
     ∧ entries_no_wrap content header) →
  ∃ d m, process_mo_contents content ∅ = (Returned d, m).
Proof.
  intros H.
  destruct (process_cases content ∅) as [(d & _ & ->) | (h & Hr & Ht & E)];
    [by eexists _, _ |].
  destruct (H h Hr) as (Wo & Wt & We).
  destruct (read_header_range _ _ Hr) as (Rn & Ro & Rt).
  apply tables_fit_no_wrap in Ht as [Bo Bt]; [| lia ..].
  pose proof (entries_loop_no_wild_read content h
                (Z.to_nat (number h)) 0 ∅) as Hw.
  pose proof (entries_loop_no_throw content h
                (Z.to_nat (number h)) 0 ∅) as Hx.
  rewrite E.
  destruct (entries_loop (Z.to_nat (number h)) content h 0 ∅) as [o m].
  destruct o as [d | |]; simpl in *.
  - by exists d, m.
  - destruct Hx; [| done]. intros j e Hj. apply We. lia.
  - destruct Hw; [| done]. intros j Hj.
    apply entries_readable_in_tables; try done. lia.
Qed.

(** X22. On a file that opens and in which nothing wraps around in 32
    bits (neither [offset + 8 * number] for the two tables nor [offset +
    length] for an entry below the count), [main] runs to its end and
    exits with status 0, whatever the bytes of the file and whatever the
    action: a damaged file is reported on the standard error and dumped as
    far as it was read. *)
Theorem main_exits_zero_without_wrap (fs : files)
    (prog filename action : string) (rest : list string)
    (contents : string) :
  fs filename = Some contents →
  (∀ header, read_header (c_str contents) = Some header →
     o_offset header + 8 * number header < 2 ^ 32
     ∧ t_offset header + 8 * number header < 2 ^ 32
     ∧ entries_no_wrap contents header) →
  ended (main fs (prog :: filename :: action :: rest)) = Exit 0.
Proof.
  intros Hf H.
  destruct (process_returns contents H) as (d & m & Hp).
  unfold main, mo_parser. simpl. rewrite Hf, Hp.
  destruct (String.eqb action "keys"); [done |].
  by destruct (String.eqb action "pairs").
Qed.

Lemma main_exits_zero_without_wrap_witness :
  ended (main (Examples.one_file "cut.mo" Examples.second_entry_too_long)
           ["mo_dump"; "cut.mo"; "pairs"]) = Exit 0.
Proof.
  apply (main_exits_zero_without_wrap
           (Examples.one_file "cut.mo" Examples.second_entry_too_long)
           "mo_dump" "cut.mo" "pairs" [] Examples.second_entry_too_long).
  - reflexivity.
  - intros header [= <-].
    split; [by vm_compute |]. split; [by vm_compute |].
    change (∀ i e, 0 ≤ i < 2 →
              original_at Examples.second_entry_too_long
                {| magic := 0x950412de; version := 0; number := 2;
                   o_offset := 20; t_offset := 36 |} i = Some e
              ∨ translated_at Examples.second_entry_too_long
                  {| magic := 0x950412de; version := 0; number := 2;
                     o_offset := 20; t_offset := 36 |} i = Some e →
              e_offset e + e_length e < 2 ^ 32).
    closed_entries_in_bounds.
Defined.
